(** * Event scheduler: scheduling service, worker and retry logic

    A shallow embedding of [backend/src/services/event.service.ts]
    (class [EventService]) and of the BullMQ worker script (the
    [eventWorker] processor), over an explicit world made of the
    [events] table and the log of calls handed to the collaborators
    (database, queue, broadcast bus, message sender).

    Instants ([Date] values, [Date.now()]) are integers: milliseconds
    since the epoch.  JavaScript numbers are integers here: every number
    the modelled code handles is a millisecond count or a retry counter. *)

From Stdlib Require Import ZArith String List Lia.
From stdpp Require Import base gmap strings list fin_maps.

#[local] Open Scope string_scope.
#[local] Open Scope list_scope.
#[local] Open Scope Z_scope.

(** * Data model ([schema.prisma] and the interfaces of the code) *)

(** [enum EventStatus], in the order of the schema. *)
Inductive EventStatus : Type :=
  | SCHEDULED
  | SENT
  | FAILED
  | RETRIED
  | PROCESSING.

#[global] Instance EventStatus_eq_dec : EqDecision EventStatus.
Proof. solve_decision. Defined.

(** [model Event]: one row of the [events] table. *)
Record Event : Type := {
  id : string;
  message : string;
  recipientEmail : string;
  sendAt : Z;
  status : EventStatus;
  retryCount : Z;
  createdAt : Z;
  updatedAt : Z
}.

(** [CreateEventData]: what the controller passes to [scheduleEvent]. *)
Module CreateEventData.
Record t : Type := {
  message : string;
  recipientEmail : string;
  sendAt : Z
}.
End CreateEventData.

(** [UpdateEventData]: a partial update; an absent field is left as it is. *)
Module UpdateEventData.
Record t : Type := {
  status : option EventStatus;
  retryCount : option Z
}.
End UpdateEventData.

(** [interface SendEventJobData] of the worker script. *)
Module SendEventJobData.
Record t : Type := {
  eventId : string;
  recipientEmail : string;
  message : string
}.
End SendEventJobData.

(** The options object of [eventQueue.add]. *)
Module JobsOptions.
Record t : Type := {
  delay : Z;
  attempts : Z;
  removeOnComplete : bool;
  removeOnFail : bool;
  jobId : string
}.
End JobsOptions.

(** One call [eventQueue.add(name, data, opts)]. *)
Module QueuedJob.
Record t : Type := {
  name : string;
  data : SendEventJobData.t;
  opts : JobsOptions.t
}.
End QueuedJob.

(** The [Job] object BullMQ hands to the processor. *)
Module Job.
Record t : Type := {
  id : string;
  data : SendEventJobData.t;
  attemptsMade : Z
}.
End Job.

(** The text [Date.prototype.toISOString] returns, represented by the
    instant it denotes. *)
Inductive ISOString : Type := ISO (instant : Z).

Definition toISOString (d : Z) : ISOString := ISO d.

(** The object literal passed to [broadcastEventUpdate]. *)
Module EventUpdate.
Record t : Type := {
  id : string;
  message : string;
  recipientEmail : string;
  sendAt : ISOString;
  status : EventStatus;
  retryCount : Z;
  createdAt : ISOString;
  updatedAt : ISOString
}.
End EventUpdate.

(** * The world and the effects of the collaborators *)

(** What a collaborator did, in program order.  Calls that threw are not
    logged: they changed nothing.  [DbCreate] and [DbUpdate] carry the
    row as stored by the write, [DbRead] what the read returned.
    [WarnRetrying] is the [console.warn] of the retry path, which prints
    the next retry count and the delay ([retryDelay / 1000] seconds; the
    log keeps the milliseconds). *)
Inductive Effect : Type :=
  | DbCreate (e : Event)
  | DbUpdate (e : Event)
  | DbRead (key : string) (found : option Event)
  | QueueAdd (j : QueuedJob.t)
  | Broadcast (m : EventUpdate.t)
  | Send (recipient content : string) (success : bool)
  | WarnRetrying (eventId : string) (nextRetryCount retryDelay : Z).

(** The [events] table, keyed by [id], and the log of effects. *)
Record World : Type := {
  db : gmap string Event;
  effects : list Effect
}.

(** Nothing stored, nothing done yet. *)
Definition initial : World := {| db := ∅; effects := [] |}.

(** Append one effect to the log. *)
Definition log (x : Effect) (w : World) : World :=
  {| db := db w; effects := effects w ++ [x] |}.

(** * Promises that may reject: state and exception *)

(** How an awaited promise settles: resolved with a value, or rejected
    with an [Error] (kept as its message). *)
Inductive Result (A : Type) : Type :=
  | Ok (a : A)
  | Throw (error : string).
Arguments Ok {A} a.
Arguments Throw {A} error.

(** An [async] computation over the world. *)
Definition M (A : Type) : Type := World -> Result A * World.

Definition ret {A} (a : A) : M A := fun w => (Ok a, w).

Definition throw {A} (error : string) : M A := fun w => (Throw error, w).

(** [const x = await c; k]: a rejection of [c] skips [k]. *)
Definition bind {A B} (c : M A) (k : A -> M B) : M B :=
  fun w =>
    match c w with
    | (Ok a, w') => k a w'
    | (Throw error, w') => (Throw error, w')
    end.

(** [try { body } catch (error) { handler }]: the writes [body] made
    before it threw stay. *)
Definition try_catch {A} (body : M A) (handler : string -> M A) : M A :=
  fun w =>
    match body w with
    | (Ok a, w') => (Ok a, w')
    | (Throw error, w') => handler error w'
    end.

Definition emit (x : Effect) : M unit := fun w => (Ok tt, log x w).

Notation "'let*' x ':=' c 'in' k" := (bind c (fun x => k))
  (at level 10, x binder, c at level 100, k at level 200).

(** * What the environment decides *)

(** One database call: the instant the database works at, and whether the
    call rejects for a reason of the infrastructure (connection lost). *)
Record DbCall : Type := {
  stamp : Z;
  rejects : bool
}.

(** One call of [EventService.scheduleEvent]: the [uuid()] drawn for the
    row, the outcome of the insert, the value [Date.now()] returns and
    whether [eventQueue.add] rejects. *)
Record ScheduleEnv : Type := {
  uuid : string;
  create : DbCall;
  dateNow : Z;
  addRejects : bool
}.

(** One run of the processor: the outcome of the update to [PROCESSING],
    what [simulateSendMessage] resolves to, whether the read of the retry
    path rejects, and the outcome of the last update. *)
Record AttemptEnv : Type := {
  markProcessing : DbCall;
  sendSuccess : bool;
  readRejects : bool;
  markResult : DbCall
}.

(** * Collaborators *)

Module EventModel.

(** Modelled from the spec: [models/event.model.ts] is not among the
    sources.  The row an insert makes: the item is created with
    [status=SCHEDULED], [retryCount=0]; [createdAt] is set once at
    creation (the defaults of [schema.prisma] say the same). *)
Definition newRow (key : string) (data : CreateEventData.t)
    (now : Z) : Event := {|
  id := key;
  message := CreateEventData.message data;
  recipientEmail := CreateEventData.recipientEmail data;
  sendAt := CreateEventData.sendAt data;
  status := SCHEDULED;
  retryCount := 0;
  createdAt := now;
  updatedAt := now
|}.

(** Modelled from the spec: [models/event.model.ts] ([EventModel]) is
    not among the sources.  The spec's durable record store has
    [create(item) -> item], [get(id) -> item|absent] and
    [update(id, partialFields) -> item], atomic per item; the defaults
    of a new row ([status], [retryCount], [createdAt]), the primary key
    and [@updatedAt] are those of [schema.prisma]. *)
Definition createEvent (c : DbCall) (key : string)
    (data : CreateEventData.t) : M Event :=
  fun w =>
    if rejects c then (Throw "Database unavailable.", w)
    else
      match db w !! key with
      | Some _ => (Throw "Unique constraint failed on the fields: (`id`)", w)
      | None =>
          let row := newRow key data (stamp c) in
          (Ok row, log (DbCreate row)
                     {| db := <[key := row]> (db w); effects := effects w |})
      end.

(** Modelled from the spec: [get(id) -> item|absent]. *)
Definition getEventById (fails : bool) (key : string) : M (option Event) :=
  fun w =>
    if fails then (Throw "Database unavailable.", w)
    else (Ok (db w !! key), log (DbRead key (db w !! key)) w).

(** Modelled from the spec: the row an update leaves.  The partial
    fields given replace the old ones, [id], payload, [sendAt] and
    [createdAt] are immutable, and [updatedAt] is set on every mutation of
    [status] or [retryCount]. *)
Definition applyUpdate (old : Event) (data : UpdateEventData.t)
    (now : Z) : Event := {|
  id := id old;
  message := message old;
  recipientEmail := recipientEmail old;
  sendAt := sendAt old;
  status := default (status old) (UpdateEventData.status data);
  retryCount := default (retryCount old) (UpdateEventData.retryCount data);
  createdAt := createdAt old;
  updatedAt := now
|}.

(** Modelled from the spec: [update(id, partialFields) -> item]; a row
    that is absent makes the update reject and nothing is mutated (the
    missing-record fault of the spec). *)
Definition updateEvent (c : DbCall) (key : string)
    (data : UpdateEventData.t) : M Event :=
  fun w =>
    if rejects c then (Throw "Database unavailable.", w)
    else
      match db w !! key with
      | None => (Throw "Record to update not found.", w)
      | Some old =>
          let row := applyUpdate old data (stamp c) in
          (Ok row, log (DbUpdate row)
                     {| db := <[key := row]> (db w); effects := effects w |})
      end.

End EventModel.

(** [eventQueue.add(name, data, opts)] of BullMQ: the job is handed to
    the queue, or the call rejects (Redis unreachable). *)
Definition eventQueue_add (fails : bool) (name : string)
    (data : SendEventJobData.t) (opts : JobsOptions.t) : M QueuedJob.t :=
  if fails then throw "Connection is closed."
  else
    let job := {| QueuedJob.name := name; QueuedJob.data := data;
                  QueuedJob.opts := opts |} in
    let* _ := emit (QueueAdd job) in
    ret job.

(** [broadcastEventUpdate(eventData)] of [utils/websocket.ts]: the update
    is handed to the bus (published on the Redis channel, or sent to the
    clients of this process). *)
Definition broadcastEventUpdate (eventData : EventUpdate.t) : M unit :=
  emit (Broadcast eventData).

(** * [EventService] *)

Module EventService.

(** The object literal both methods build from a row. *)
Definition eventData (e : Event) : EventUpdate.t := {|
  EventUpdate.id := id e;
  EventUpdate.message := message e;
  EventUpdate.recipientEmail := recipientEmail e;
  EventUpdate.sendAt := toISOString (sendAt e);
  EventUpdate.status := status e;
  EventUpdate.retryCount := retryCount e;
  EventUpdate.createdAt := toISOString (createdAt e);
  EventUpdate.updatedAt := toISOString (updatedAt e)
|}.

Definition scheduleEvent (env : ScheduleEnv) (data : CreateEventData.t)
    : M Event :=
  try_catch
    ((* 1. Create the event in the database. *)
     let* newEvent := EventModel.createEvent (create env) (uuid env) data in
     (* 2. Add a job to the BullMQ queue. *)
     let delay := sendAt newEvent - dateNow env in
     let effectiveDelay := Z.max 0 delay in
     let* job :=
       eventQueue_add (addRejects env) "sendEvent"
         {| SendEventJobData.eventId := id newEvent;
            SendEventJobData.recipientEmail := recipientEmail newEvent;
            SendEventJobData.message := message newEvent |}
         {| JobsOptions.delay := effectiveDelay;
            JobsOptions.attempts := 1;
            JobsOptions.removeOnComplete := true;
            JobsOptions.removeOnFail := false;
            JobsOptions.jobId := id newEvent |} in
     (* 3. Broadcast the initial scheduled event status. *)
     let* _ := broadcastEventUpdate (eventData newEvent) in
     ret newEvent)
    (fun _ => throw "Failed to schedule event.").

Definition getEventDetails (fails : bool) (key : string)
    : M (option Event) :=
  try_catch
    (let* event := EventModel.getEventById fails key in
     ret event)
    (fun _ => throw "Failed to retrieve event details.").

Definition updateEventStatus (c : DbCall) (key : string)
    (newStatus : EventStatus) (newRetryCount : option Z) : M Event :=
  try_catch
    (let updateData := {|
       UpdateEventData.status := Some newStatus;
       UpdateEventData.retryCount := newRetryCount
     |} in
     let* updatedEvent := EventModel.updateEvent c key updateData in
     let* _ := broadcastEventUpdate (eventData updatedEvent) in
     ret updatedEvent)
    (fun _ => throw "Failed to update event status.").

End EventService.

(** * The worker *)

Definition MAX_RETRIES : Z := 3.
Definition RETRY_DELAY_MS : Z := 1000.

(** [simulateSendMessage]: the draw [Math.random() > 0.1] is the
    environment's. *)
Definition simulateSendMessage (success : bool)
    (recipient content : string) : M bool :=
  let* _ := emit (Send recipient content success) in
  ret success.

(** [RETRY_DELAY_MS * Math.pow(2, currentRetryCount)]. *)
Definition retryDelay (currentRetryCount : Z) : Z :=
  RETRY_DELAY_MS * 2 ^ currentRetryCount.

(** The processor given to [new Worker("eventQueue", ...)].  Of its
    console output only the retry warning is kept, which carries the
    computed delay; [job.attemptsMade] goes to a [console.log] and
    nowhere else. *)
Definition eventWorker (env : AttemptEnv) (job : Job.t) : M unit :=
  let eventId := SendEventJobData.eventId (Job.data job) in
  let recipientEmail := SendEventJobData.recipientEmail (Job.data job) in
  let message := SendEventJobData.message (Job.data job) in
  try_catch
    ((* 1. Update event status to PROCESSING. *)
     let* _ :=
       EventService.updateEventStatus (markProcessing env) eventId
         PROCESSING None in
     (* 2. Simulate sending the message. *)
     let* sendSuccess :=
       simulateSendMessage (sendSuccess env) recipientEmail message in
     if sendSuccess then
       let* _ :=
         EventService.updateEventStatus (markResult env) eventId SENT None in
       ret tt
     else
       let* event := EventService.getEventDetails (readRejects env) eventId in
       match event with
       | None => throw ("Event " +:+ eventId +:+ " not found.")
       | Some event =>
           let currentRetryCount := retryCount event in
           if currentRetryCount <? MAX_RETRIES then
             let nextRetryCount := currentRetryCount + 1 in
             let retryDelay := retryDelay currentRetryCount in
             let* _ := emit (WarnRetrying eventId nextRetryCount retryDelay) in
             let* _ :=
               EventService.updateEventStatus (markResult env) eventId
                 RETRIED (Some nextRetryCount) in
             throw "Simulated send failure, marking for potential retry by external system or monitoring."
           else
             let* _ :=
               EventService.updateEventStatus (markResult env) eventId
                 FAILED None in
             throw ("Event " +:+ eventId +:+ " failed after maximum retries.")
       end)
    (fun error => throw error).

(** What other writers do to the table while an [await] of the processor
    is pending: the worker runs up to five jobs at a time
    ([concurrency: 5]) and the API process writes the same table. *)
Definition meanwhile (others : gmap string Event -> gmap string Event)
    : M unit :=
  fun w => (Ok tt, {| db := others (db w); effects := effects w |}).

(** The processor with the table changing under it while the send is in
    flight: the statements of [eventWorker], and [others] applied to the
    table when [simulateSendMessage] has settled. *)
Definition eventWorkerAmid (others : gmap string Event -> gmap string Event)
    (env : AttemptEnv) (job : Job.t) : M unit :=
  let eventId := SendEventJobData.eventId (Job.data job) in
  let recipientEmail := SendEventJobData.recipientEmail (Job.data job) in
  let message := SendEventJobData.message (Job.data job) in
  try_catch
    ((* 1. Update event status to PROCESSING. *)
     let* _ :=
       EventService.updateEventStatus (markProcessing env) eventId
         PROCESSING None in
     (* 2. Simulate sending the message. *)
     let* sendSuccess :=
       simulateSendMessage (sendSuccess env) recipientEmail message in
     let* _ := meanwhile others in
     if sendSuccess then
       let* _ :=
         EventService.updateEventStatus (markResult env) eventId SENT None in
       ret tt
     else
       let* event := EventService.getEventDetails (readRejects env) eventId in
       match event with
       | None => throw ("Event " +:+ eventId +:+ " not found.")
       | Some event =>
           let currentRetryCount := retryCount event in
           if currentRetryCount <? MAX_RETRIES then
             let nextRetryCount := currentRetryCount + 1 in
             let retryDelay := retryDelay currentRetryCount in
             let* _ := emit (WarnRetrying eventId nextRetryCount retryDelay) in
             let* _ :=
               EventService.updateEventStatus (markResult env) eventId
                 RETRIED (Some nextRetryCount) in
             throw "Simulated send failure, marking for potential retry by external system or monitoring."
           else
             let* _ :=
               EventService.updateEventStatus (markResult env) eventId
                 FAILED None in
             throw ("Event " +:+ eventId +:+ " failed after maximum retries.")
       end)
    (fun error => throw error).

(** * Sequences of operations *)

(** The operations of the core: a call of the scheduler, or one run of
    the processor on a released (or redelivered) job. *)
Inductive Op : Type :=
  | Schedule (env : ScheduleEnv) (data : CreateEventData.t)
  | Attempt (env : AttemptEnv) (job : Job.t).

Definition step (op : Op) (w : World) : World :=
  match op with
  | Schedule env data => snd (EventService.scheduleEvent env data w)
  | Attempt env job => snd (eventWorker env job w)
  end.

Definition run (ops : list Op) (w : World) : World :=
  fold_left (fun w op => step op w) ops w.

(** * Reading the log *)

(** The jobs handed to the queue, oldest first. *)
Definition enqueued (l : list Effect) : list QueuedJob.t :=
  flat_map (fun x => match x with QueueAdd j => [j] | _ => [] end) l.

(** The updates handed to the bus, oldest first. *)
Definition published (l : list Effect) : list EventUpdate.t :=
  flat_map (fun x => match x with Broadcast m => [m] | _ => [] end) l.

(** The row a mutation of the table wrote. *)
Definition written (x : Effect) : option Event :=
  match x with
  | DbCreate e | DbUpdate e => Some e
  | _ => None
  end.

(** The calls to the table and the sends in a log, in order: what went
    to the queue, the bus and the console is left out. *)
Definition calls (l : list Effect) : list Effect :=
  flat_map
    (fun x =>
       match x with
       | DbCreate _ | DbUpdate _ | DbRead _ _ | Send _ _ _ => [x]
       | QueueAdd _ | Broadcast _ | WarnRetrying _ _ _ => []
       end) l.

(** The retry delays announced on the console, oldest first. *)
Definition announcedDelays (l : list Effect) : list Z :=
  flat_map
    (fun x => match x with WarnRetrying _ _ d => [d] | _ => [] end) l.

#[global] Instance ISOString_eq_dec : EqDecision ISOString.
Proof. solve_decision. Defined.

#[global] Instance EventUpdate_eq_dec : EqDecision EventUpdate.t.
Proof. solve_decision. Defined.

(** The updates handed to the bus before the next write to the table. *)
Fixpoint untilNextWrite (l : list Effect) : list EventUpdate.t :=
  match l with
  | [] => []
  | DbCreate _ :: _ | DbUpdate _ :: _ => []
  | Broadcast m :: rest => m :: untilNextWrite rest
  | _ :: rest => untilNextWrite rest
  end.

(** A broadcast message carries a row: each of its eight fields is the
    row's, an instant as the ISO text that denotes it. *)
Definition carries (m : EventUpdate.t) (e : Event) : Prop :=
  EventUpdate.id m = id e
  /\ EventUpdate.message m = message e
  /\ EventUpdate.recipientEmail m = recipientEmail e
  /\ EventUpdate.sendAt m = ISO (sendAt e)
  /\ EventUpdate.status m = status e
  /\ EventUpdate.retryCount m = retryCount e
  /\ EventUpdate.createdAt m = ISO (createdAt e)
  /\ EventUpdate.updatedAt m = ISO (updatedAt e).

#[global] Instance carries_dec (m : EventUpdate.t) (e : Event) :
  Decision (carries m e).
Proof. unfold carries. apply _. Defined.

(** Before the next write the log has exactly one broadcast, and it
    carries the row [e]. *)
Definition announcedOnce (e : Event) (rest : list Effect) : bool :=
  match untilNextWrite rest with
  | [m] => bool_decide (carries m e)
  | _ => false
  end.

(** Every write in the log is followed, before the next write, by exactly
    one broadcast, which carries the row as written. *)
Fixpoint announced (l : list Effect) : bool :=
  match l with
  | [] => true
  | x :: rest =>
      match written x with
      | Some e => announcedOnce e rest
      | None => true
      end && announced rest
  end.

(** Is a job handed to the queue before the next write to the table? *)
Fixpoint queuedBeforeNextWrite (l : list Effect) : bool :=
  match l with
  | [] => false
  | DbCreate _ :: _ | DbUpdate _ :: _ => false
  | QueueAdd _ :: _ => true
  | _ :: rest => queuedBeforeNextWrite rest
  end.

(** Every update in the log is followed, before the next write, by exactly
    one broadcast, which carries the row as written; so is every insert
    that is followed by an enqueue, and an insert that is not is followed
    by no broadcast at all. *)
Fixpoint announcedIfQueued (l : list Effect) : bool :=
  match l with
  | [] => true
  | x :: rest =>
      match x with
      | DbUpdate e => announcedOnce e rest
      | DbCreate e =>
          if queuedBeforeNextWrite rest then announcedOnce e rest
          else bool_decide (untilNextWrite rest = [])
      | _ => true
      end && announcedIfQueued rest
  end.

(** The id of the row an operation may update. *)
Definition target (op : Op) : option string :=
  match op with
  | Schedule _ _ => None
  | Attempt _ job => Some (SendEventJobData.eventId (Job.data job))
  end.

(** * The rows and the log of one run of the processor *)

Section AttemptRows.

Context (env : AttemptEnv) (job : Job.t).

Let key : string := SendEventJobData.eventId (Job.data job).

(** The row after the update to [PROCESSING]. *)
Definition processingRow (old : Event) : Event :=
  EventModel.applyUpdate old
    {| UpdateEventData.status := Some PROCESSING;
       UpdateEventData.retryCount := None |}
    (stamp (markProcessing env)).

(** The row the last update of a run writes, by the outcome of the send
    and the retry count read back. *)
Definition resultRow (old : Event) : Event :=
  let current := processingRow old in
  EventModel.applyUpdate current
    (if sendSuccess env then
       {| UpdateEventData.status := Some SENT;
          UpdateEventData.retryCount := None |}
     else if retryCount current <? MAX_RETRIES then
       {| UpdateEventData.status := Some RETRIED;
          UpdateEventData.retryCount := Some (retryCount current + 1) |}
     else
       {| UpdateEventData.status := Some FAILED;
          UpdateEventData.retryCount := None |})
    (stamp (markResult env)).

(** What a run logs up to the send. *)
Definition openingEffects (old : Event) : list Effect :=
  [DbUpdate (processingRow old);
   Broadcast (EventService.eventData (processingRow old));
   Send (SendEventJobData.recipientEmail (Job.data job))
        (SendEventJobData.message (Job.data job)) (sendSuccess env)].

(** What the retry path logs between the send and the last update. *)
Definition retryEffects (old : Event) : list Effect :=
  if sendSuccess env then []
  else
    DbRead key (Some (processingRow old))
    :: (if retryCount (processingRow old) <? MAX_RETRIES then
          [WarnRetrying key (retryCount (processingRow old) + 1)
             (retryDelay (retryCount (processingRow old)))]
        else []).

Definition closingEffects (old : Event) : list Effect :=
  [DbUpdate (resultRow old);
   Broadcast (EventService.eventData (resultRow old))].

(** The error (or completion) a run that wrote its last update ends
    with. *)
Definition verdict (old : Event) : Result unit :=
  if sendSuccess env then Ok tt
  else if retryCount (processingRow old) <? MAX_RETRIES then
    Throw "Simulated send failure, marking for potential retry by external system or monitoring."
  else Throw ("Event " +:+ key +:+ " failed after maximum retries.").

End AttemptRows.

(** The row the retry path leaves, told from the row it read back:
    [RETRIED] with one more retry below the ceiling, [FAILED] with the
    same count otherwise; nothing else but [updatedAt] changes. *)
Definition decided (row : Event) (now : Z) : Event := {|
  id := id row;
  message := message row;
  recipientEmail := recipientEmail row;
  sendAt := sendAt row;
  status := if retryCount row <? MAX_RETRIES then RETRIED else FAILED;
  retryCount :=
    if retryCount row <? MAX_RETRIES then retryCount row + 1
    else retryCount row;
  createdAt := createdAt row;
  updatedAt := now
|}.

(** An interference that leaves the sample row with its retries used up,
    whatever the table held. *)
Definition usedUp (table : gmap string Event) : gmap string Event :=
  <["e1" := {| id := "e1"; message := "hello";
               recipientEmail := "user@example.com"; sendAt := 5000;
               status := RETRIED; retryCount := 3;
               createdAt := 7000; updatedAt := 7400 |}]> table.

(** * Predicates on rows, tables and operations *)

(** How an update of the processor relates the row it found to the row it
    leaves: the retry count stays (and a row left [FAILED] had used up its
    retries), or it grows by one from below the ceiling and the row is
    left [RETRIED]. *)
Definition evolves (old new : Event) : Prop :=
  (retryCount new = retryCount old
   /\ (status new = FAILED -> MAX_RETRIES <= retryCount old))
  \/ (retryCount new = retryCount old + 1
      /\ retryCount old < MAX_RETRIES
      /\ status new = RETRIED).

Definition row_ok (e : Event) : Prop :=
  0 <= retryCount e <= MAX_RETRIES
  /\ (status e = FAILED -> retryCount e = MAX_RETRIES).

Definition table_ok (w : World) : Prop :=
  forall (key : string) (e : Event), db w !! key = Some e -> row_ok e.

(** An operation spares a row when it is not a run of the processor on a
    job that carries the row's id. *)
Definition spares (key : string) (op : Op) : Prop :=
  target op <> Some key.


(** * Sample inputs *)

(** Sample inputs: one request, the environment of an undisturbed call
    and the job BullMQ releases for it. *)
Definition sampleData : CreateEventData.t := {|
  CreateEventData.message := "hello";
  CreateEventData.recipientEmail := "user@example.com";
  CreateEventData.sendAt := 5000
|}.

Definition calm (now : Z) : DbCall := {| stamp := now; rejects := false |}.

Definition down (now : Z) : DbCall := {| stamp := now; rejects := true |}.

Definition sampleSchedule : ScheduleEnv := {|
  uuid := "e1";
  create := calm 7000;
  dateNow := 7001;
  addRejects := false
|}.

Definition sampleJob : Job.t := {|
  Job.id := "e1";
  Job.data := {|
    SendEventJobData.eventId := "e1";
    SendEventJobData.recipientEmail := "user@example.com";
    SendEventJobData.message := "hello" |};
  Job.attemptsMade := 0
|}.

(** An undisturbed run of the processor starting at [now], whose send
    resolves to [success]. *)
Definition attemptAt (now : Z) (success : bool) : AttemptEnv := {|
  markProcessing := calm now;
  sendSuccess := success;
  readRejects := false;
  markResult := calm (now + 600)
|}.

Definition queueDown : ScheduleEnv := {|
  uuid := "e1";
  create := calm 7000;
  dateNow := 7001;
  addRejects := true
|}.

(** A second request and the job released for it. *)
Definition otherSchedule : ScheduleEnv := {|
  uuid := "e2";
  create := calm 15000;
  dateNow := 15001;
  addRejects := false
|}.

Definition otherJob : Job.t := {|
  Job.id := "e2";
  Job.data := {|
    SendEventJobData.eventId := "e2";
    SendEventJobData.recipientEmail := "user@example.com";
    SendEventJobData.message := "hello" |};
  Job.attemptsMade := 0
|}.

(** The world after the sample request was scheduled. *)
Definition scheduled : World :=
  run [Schedule sampleSchedule sampleData] initial.

(** The sample request, then four failed sends (each job released by
    hand): the row ends [FAILED] with retry count 3. *)
Definition exhausted : list Op :=
  [Schedule sampleSchedule sampleData;
   Attempt (attemptAt 7100 false) sampleJob;
   Attempt (attemptAt 8100 false) sampleJob;
   Attempt (attemptAt 10100 false) sampleJob;
   Attempt (attemptAt 14100 false) sampleJob].

Definition exhaustedRow : Event := {|
  id := "e1";
  message := "hello";
  recipientEmail := "user@example.com";
  sendAt := 5000;
  status := FAILED;
  retryCount := 3;
  createdAt := 7000;
  updatedAt := 14700
|}.

(** * More readings of the log and of the queue *)

(** The sends a log records: recipient, content and outcome. *)
Definition sends (l : list Effect) : list (string * string * bool) :=
  flat_map
    (fun x => match x with Send r c ok => [(r, c, ok)] | _ => [] end) l.

(** What an update tells an observer first: id, status and retry count. *)
Definition headline (m : EventUpdate.t) : string * EventStatus * Z :=
  (EventUpdate.id m, EventUpdate.status m, EventUpdate.retryCount m).

(** The [Job] BullMQ makes of a job added with a [jobId]: the id is the
    [jobId], the data are the data added. *)
Definition release (q : QueuedJob.t) (made : Z) : Job.t := {|
  Job.id := JobsOptions.jobId (QueuedJob.opts q);
  Job.data := QueuedJob.data q;
  Job.attemptsMade := made
|}.

(** A run of the processor with the database reachable throughout. *)
Definition undisturbed (env : AttemptEnv) : Prop :=
  rejects (markProcessing env) = false
  /\ readRejects env = false
  /\ rejects (markResult env) = false.

(** An undisturbed run whose send fails. *)
Definition failing (env : AttemptEnv) : Prop :=
  sendSuccess env = false /\ undisturbed env.

(** The fields of a row no update touches. *)
Definition samePayload (e e' : Event) : Prop :=
  id e' = id e
  /\ message e' = message e
  /\ recipientEmail e' = recipientEmail e
  /\ sendAt e' = sendAt e
  /\ createdAt e' = createdAt e.

(** Every row sits under its own id. *)
Definition keyed (w : World) : Prop :=
  forall (key : string) (e : Event), db w !! key = Some e -> id e = key.

(** How status and retry count go together in a stored row. *)
Definition status_fits (e : Event) : Prop :=
  (status e = SCHEDULED -> retryCount e = 0)
  /\ (status e = RETRIED -> 1 <= retryCount e).

(** * The WebSocket fan-out ([utils/websocket.ts], [server.ts]) *)

(** The objects sent to a browser: [{ type, <member>: eventData }] (the
    member is [data] in [utils/websocket.ts], [payload] in the first
    [server.ts]), and the notice [{ type, message }] a new connection is
    greeted with. *)
Inductive Frame : Type :=
  | Tagged (type member : string) (eventData : EventUpdate.t)
  | Notice (type message : string).

(** The text [JSON.stringify] returns for a value of type [A],
    represented by the value it encodes; [JSON.parse] gives the value
    back. *)
Inductive Text (A : Type) : Type := Stringified (value : A).
Arguments Stringified {A} value.

Definition JSON_stringify {A : Type} (value : A) : Text A :=
  Stringified value.

Definition JSON_parse {A : Type} (text : Text A) : A :=
  match text with Stringified value => value end.

(** [frame.type]. *)
Definition Frame_type (frame : Frame) : string :=
  match frame with
  | Tagged type _ _ => type
  | Notice type _ => type
  end.

(** [frame.payload]: [None] is [undefined]. *)
Definition Frame_payload (frame : Frame) : option EventUpdate.t :=
  match frame with
  | Tagged _ member eventData =>
      if bool_decide (member = "payload") then Some eventData else None
  | Notice _ _ => None
  end.

(** [WebSocket.readyState]. *)
Inductive ReadyState : Type :=
  | CONNECTING
  | OPEN
  | CLOSING
  | CLOSED.

#[global] Instance ReadyState_eq_dec : EqDecision ReadyState.
Proof. solve_decision. Defined.

(** One [WebSocket] object of a process: its state and what was sent on
    it, oldest first. *)
Record Socket : Type := {
  readyState : ReadyState;
  outbox : list (Text Frame)
}.

(** [client.send(message)]. *)
Definition ws_send (message : Text Frame) (k : Socket) : Socket :=
  {| readyState := readyState k; outbox := outbox k ++ [message] |}.

(** The body of the [forEach] of both versions of the broadcast:
    [if (client.readyState === WebSocket.OPEN) client.send(message)];
    sockets are named by a number, which stands for the object. *)
Definition sendIfOpen (message : Text Frame) (s : gmap nat Socket)
    (client : nat) : gmap nat Socket :=
  match s !! client with
  | Some k =>
      if bool_decide (readyState k = OPEN)
      then <[client := ws_send message k]> s
      else s
  | None => s
  end.

(** [clients.forEach(client => ...)] over a [Set<WebSocket>]. *)
Definition forEachClient (message : Text Frame) (clients : gset nat)
    (s : gmap nat Socket) : gmap nat Socket :=
  foldl (sendIfOpen message) s (elements clients).

(** What a socket looks like after a broadcast that reached it. *)
Definition reached (message : Text Frame) (k : Socket) : Socket :=
  if bool_decide (readyState k = OPEN) then ws_send message k else k.

(** The Redis channel of the second version. *)
Definition broadcastChannel : string := "websocket:broadcast".

(** [utils/websocket.ts] as in [src/utils/websocket.ts]: one module-level
    [Set] of clients. *)
Module WebSocketV1.

Record Hub : Type := {
  sockets : gmap nat Socket;
  connectedClients : gset nat
}.

(** [connectedClients.add(ws)]; the [close] handler it installs is
    [onClose] below. *)
Definition addWebSocketClient (ws : nat) (h : Hub) : Hub :=
  {| sockets := sockets h;
     connectedClients := connectedClients h ∪ {[ws]} |}.

(** The handler of the [close] event: [connectedClients.delete(ws)]. *)
Definition onClose (ws : nat) (h : Hub) : Hub :=
  {| sockets := sockets h;
     connectedClients := connectedClients h ∖ {[ws]} |}.

Definition broadcastEventUpdate (eventData : EventUpdate.t) (h : Hub)
    : Hub :=
  let message :=
    JSON_stringify (Tagged "eventUpdate" "data" eventData) in
  {| sockets := forEachClient message (connectedClients h) (sockets h);
     connectedClients := connectedClients h |}.

End WebSocketV1.

(** [utils/websocket.ts] in its second version: the [Set] is the one of
    [server.ts], handed over by [setWebSocketClients], and updates travel
    through Redis when a publisher exists. *)
Module WebSocketV2.

(** One process.  [clients] is the [Set] object [server.ts] owns;
    [connectedClients] is [null] ([false]) or refers to that very object
    ([true]); [redisPublisher] and [redisSubscriber] tell whether
    [initializeWebSocketRedis] made them; [redisOut] are the messages
    published, oldest first; [errors] counts the [console.error] of
    [broadcastToClients]. *)
Record Process : Type := {
  sockets : gmap nat Socket;
  clients : gset nat;
  connectedClients : bool;
  redisPublisher : bool;
  redisSubscriber : bool;
  redisOut : list (string * Text EventUpdate.t);
  errors : nat
}.

(** A process that has run nothing yet. *)
Definition fresh : Process := {|
  sockets := ∅;
  clients := ∅;
  connectedClients := false;
  redisPublisher := false;
  redisSubscriber := false;
  redisOut := [];
  errors := 0
|}.

Definition initializeWebSocketRedis (p : Process) : Process := {|
  sockets := sockets p;
  clients := clients p;
  connectedClients := connectedClients p;
  redisPublisher := true;
  redisSubscriber := true;
  redisOut := redisOut p;
  errors := errors p
|}.

Definition setWebSocketClients (p : Process) : Process := {|
  sockets := sockets p;
  clients := clients p;
  connectedClients := true;
  redisPublisher := redisPublisher p;
  redisSubscriber := redisSubscriber p;
  redisOut := redisOut p;
  errors := errors p
|}.

(** [if (connectedClients) connectedClients.add(ws)]: the object changed
    is the shared [Set]. *)
Definition addWebSocketClient (ws : nat) (p : Process) : Process :=
  if connectedClients p then {|
    sockets := sockets p;
    clients := clients p ∪ {[ws]};
    connectedClients := connectedClients p;
    redisPublisher := redisPublisher p;
    redisSubscriber := redisSubscriber p;
    redisOut := redisOut p;
    errors := errors p
  |} else p.

Definition broadcastToClients (eventData : EventUpdate.t) (p : Process)
    : Process :=
  if negb (connectedClients p) then {|
    sockets := sockets p;
    clients := clients p;
    connectedClients := connectedClients p;
    redisPublisher := redisPublisher p;
    redisSubscriber := redisSubscriber p;
    redisOut := redisOut p;
    errors := S (errors p)
  |} else
    let message :=
      JSON_stringify (Tagged "eventUpdate" "data" eventData) in
    {| sockets := forEachClient message (clients p) (sockets p);
       clients := clients p;
       connectedClients := connectedClients p;
       redisPublisher := redisPublisher p;
       redisSubscriber := redisSubscriber p;
       redisOut := redisOut p;
       errors := errors p |}.

Definition broadcastEventUpdate (eventData : EventUpdate.t) (p : Process)
    : Process :=
  if redisPublisher p then {|
    sockets := sockets p;
    clients := clients p;
    connectedClients := connectedClients p;
    redisPublisher := redisPublisher p;
    redisSubscriber := redisSubscriber p;
    redisOut :=
      redisOut p
      ++ [(broadcastChannel, JSON_stringify eventData)];
    errors := errors p
  |} else broadcastToClients eventData p.

(** The listener [redisSubscriber.on('message', ...)]; a process without
    a subscriber has no listener.  The messages of the channel are the
    texts of [eventData] objects. *)
Definition onMessage (channel : string) (message : Text EventUpdate.t)
    (p : Process) : Process :=
  if redisSubscriber p then
    if bool_decide (channel = broadcastChannel) && connectedClients p then
      let eventData := JSON_parse message in
      broadcastToClients eventData p
    else p
  else p.

End WebSocketV2.

(** What the [ws] library and Redis deliver to a server process: a new
    connection (a new socket object, open), the start of a closing
    handshake, the [close] event of a socket, an update handed to
    [broadcastEventUpdate] of [utils/websocket.ts] by the service, an
    update handed to the [broadcastEventUpdate] that [server.ts] itself
    exports, and a message of a Redis channel. *)
Inductive WsEvent : Type :=
  | Connection (ws : nat)
  | Closing (ws : nat)
  | Close (ws : nat)
  | Update (eventData : EventUpdate.t)
  | ServerUpdate (eventData : EventUpdate.t)
  | RedisMessage (channel : string) (message : Text EventUpdate.t).

(** The socket object of a new connection. *)
Definition newSocket : Socket := {| readyState := OPEN; outbox := [] |}.

(** [readyState] of a socket becomes [state]. *)
Definition setReadyState (state : ReadyState) (ws : nat)
    (s : gmap nat Socket) : gmap nat Socket :=
  alter (fun k => {| readyState := state; outbox := outbox k |}) ws s.

(** The first [server.ts]: it keeps a [Set] of its own, [clients], beside
    the one of [utils/websocket.ts]. *)
Module ServerV1.

Record Server : Type := {
  hub : WebSocketV1.Hub;
  clients : gset nat
}.

Definition start : Server := {|
  hub := {| WebSocketV1.sockets := ∅; WebSocketV1.connectedClients := ∅ |};
  clients := ∅
|}.

(** [wss.on("connection", ws => { addWebSocketClient(ws); ... })]. *)
Definition onConnection (ws : nat) (s : Server) : Server := {|
  hub :=
    WebSocketV1.addWebSocketClient ws
      {| WebSocketV1.sockets :=
           <[ws := newSocket]> (WebSocketV1.sockets (hub s));
         WebSocketV1.connectedClients :=
           WebSocketV1.connectedClients (hub s) |};
  clients := clients s
|}.

(** The [close] event runs both handlers installed on the socket: the
    one of [addWebSocketClient] and [clients.delete(ws)] of
    [server.ts]. *)
Definition onClose (ws : nat) (s : Server) : Server := {|
  hub :=
    WebSocketV1.onClose ws
      {| WebSocketV1.sockets :=
           setReadyState CLOSED ws (WebSocketV1.sockets (hub s));
         WebSocketV1.connectedClients :=
           WebSocketV1.connectedClients (hub s) |};
  clients := clients s ∖ {[ws]}
|}.

(** The [broadcastEventUpdate] that [server.ts] exports: it walks
    [clients]. *)
Definition broadcastEventUpdate (eventData : EventUpdate.t) (s : Server)
    : Server :=
  let message :=
    JSON_stringify (Tagged "EVENT_UPDATE" "payload" eventData) in
  {| hub :=
       {| WebSocketV1.sockets :=
            forEachClient message (clients s)
              (WebSocketV1.sockets (hub s));
          WebSocketV1.connectedClients :=
            WebSocketV1.connectedClients (hub s) |};
     clients := clients s |}.

(** One event.  A connection is a new object, and only a socket that
    exists closes; a Redis message has no listener here. *)
Definition handle (ev : WsEvent) (s : Server) : Server :=
  match ev with
  | Connection ws =>
      match WebSocketV1.sockets (hub s) !! ws with
      | None => onConnection ws s
      | Some _ => s
      end
  | Closing ws =>
      {| hub :=
           {| WebSocketV1.sockets :=
                match WebSocketV1.sockets (hub s) !! ws with
                | Some k =>
                    if bool_decide (readyState k = OPEN)
                    then setReadyState CLOSING ws
                           (WebSocketV1.sockets (hub s))
                    else WebSocketV1.sockets (hub s)
                | None => WebSocketV1.sockets (hub s)
                end;
              WebSocketV1.connectedClients :=
                WebSocketV1.connectedClients (hub s) |};
         clients := clients s |}
  | Close ws =>
      match WebSocketV1.sockets (hub s) !! ws with
      | Some k =>
          if bool_decide (readyState k = CLOSED) then s else onClose ws s
      | None => s
      end
  | Update eventData =>
      {| hub := WebSocketV1.broadcastEventUpdate eventData (hub s);
         clients := clients s |}
  | ServerUpdate eventData => broadcastEventUpdate eventData s
  | RedisMessage _ _ => s
  end.

Definition run (evs : list WsEvent) (s : Server) : Server :=
  foldl (fun s ev => handle ev s) s evs.

End ServerV1.

(** The second [server.ts]: its [Set] is the one [utils/websocket.ts]
    walks, and updates arrive through Redis. *)
Module ServerV2.

Definition greeting : Text Frame :=
  JSON_stringify
    (Notice "connected" "Connected to event scheduler WebSocket").

(** [initializeWebSocketRedis(redisConnection);
    setWebSocketClients(clients);] on a new process. *)
Definition start : WebSocketV2.Process :=
  WebSocketV2.setWebSocketClients
    (WebSocketV2.initializeWebSocketRedis WebSocketV2.fresh).

(** [wss.on("connection", ws => { clients.add(ws); ws.send(...); })]. *)
Definition onConnection (ws : nat) (p : WebSocketV2.Process)
    : WebSocketV2.Process := {|
  WebSocketV2.sockets :=
    <[ws := ws_send greeting newSocket]> (WebSocketV2.sockets p);
  WebSocketV2.clients := WebSocketV2.clients p ∪ {[ws]};
  WebSocketV2.connectedClients := WebSocketV2.connectedClients p;
  WebSocketV2.redisPublisher := WebSocketV2.redisPublisher p;
  WebSocketV2.redisSubscriber := WebSocketV2.redisSubscriber p;
  WebSocketV2.redisOut := WebSocketV2.redisOut p;
  WebSocketV2.errors := WebSocketV2.errors p
|}.

(** The [close] handler: [clients.delete(ws)]. *)
Definition onClose (ws : nat) (p : WebSocketV2.Process)
    : WebSocketV2.Process := {|
  WebSocketV2.sockets := setReadyState CLOSED ws (WebSocketV2.sockets p);
  WebSocketV2.clients := WebSocketV2.clients p ∖ {[ws]};
  WebSocketV2.connectedClients := WebSocketV2.connectedClients p;
  WebSocketV2.redisPublisher := WebSocketV2.redisPublisher p;
  WebSocketV2.redisSubscriber := WebSocketV2.redisSubscriber p;
  WebSocketV2.redisOut := WebSocketV2.redisOut p;
  WebSocketV2.errors := WebSocketV2.errors p
|}.

Definition withSockets (s : gmap nat Socket) (p : WebSocketV2.Process)
    : WebSocketV2.Process := {|
  WebSocketV2.sockets := s;
  WebSocketV2.clients := WebSocketV2.clients p;
  WebSocketV2.connectedClients := WebSocketV2.connectedClients p;
  WebSocketV2.redisPublisher := WebSocketV2.redisPublisher p;
  WebSocketV2.redisSubscriber := WebSocketV2.redisSubscriber p;
  WebSocketV2.redisOut := WebSocketV2.redisOut p;
  WebSocketV2.errors := WebSocketV2.errors p
|}.

(** One event; this [server.ts] exports no broadcast of its own. *)
Definition handle (ev : WsEvent) (p : WebSocketV2.Process)
    : WebSocketV2.Process :=
  match ev with
  | Connection ws =>
      match WebSocketV2.sockets p !! ws with
      | None => onConnection ws p
      | Some _ => p
      end
  | Closing ws =>
      match WebSocketV2.sockets p !! ws with
      | Some k =>
          if bool_decide (readyState k = OPEN)
          then withSockets
                 (setReadyState CLOSING ws (WebSocketV2.sockets p)) p
          else p
      | None => p
      end
  | Close ws =>
      match WebSocketV2.sockets p !! ws with
      | Some k =>
          if bool_decide (readyState k = CLOSED) then p else onClose ws p
      | None => p
      end
  | Update eventData => WebSocketV2.broadcastEventUpdate eventData p
  | ServerUpdate _ => p
  | RedisMessage channel message =>
      WebSocketV2.onMessage channel message p
  end.

Definition run (evs : list WsEvent) (p : WebSocketV2.Process)
    : WebSocketV2.Process :=
  foldl (fun p ev => handle ev p) p evs.

End ServerV2.

(** * The front end ([EventSchedular]) *)

Module Frontend.

(** [Array.prototype.findIndex]: [-1] when no element passes. *)
Fixpoint findIndex {A : Type} (test : A -> bool) (l : list A) : Z :=
  match l with
  | [] => -1
  | x :: rest =>
      if test x then 0
      else
        let i := findIndex test rest in
        if i =? -1 then -1 else i + 1
  end.

(** The updater given to [setEvents] when an update arrives: replace the
    row of the same id, or append. *)
Definition applyUpdate (updatedEvent : EventUpdate.t)
    (prevEvents : list EventUpdate.t) : list EventUpdate.t :=
  let existingIndex :=
    findIndex
      (fun e => bool_decide (EventUpdate.id e = EventUpdate.id updatedEvent))
      prevEvents in
  if existingIndex >? -1 then
    <[Z.to_nat existingIndex := updatedEvent]> prevEvents
  else prevEvents ++ [updatedEvent].

(** [websocket.onmessage]: the list of events after the frame [text]. *)
Definition onmessage (text : Text Frame) (events : list EventUpdate.t)
    : list EventUpdate.t :=
  let data := JSON_parse text in
  if bool_decide (Frame_type data = "EVENT_UPDATE") then
    match Frame_payload data with
    | Some payload => applyUpdate payload events
    | None => events
    end
  else events.

(** The row shown for an id: the first of that id. *)
Definition shown (key : string) (events : list EventUpdate.t)
    : option EventUpdate.t :=
  List.find (fun e => bool_decide (EventUpdate.id e = key)) events.

End Frontend.

(** The last update of a list that is about [key]. *)
Definition latest (key : string) (updates : list EventUpdate.t)
    : option EventUpdate.t :=
  last (filter (fun e => EventUpdate.id e = key) updates).

(** Sample sockets and updates. *)
Definition sampleUpdate : EventUpdate.t :=
  EventService.eventData (EventModel.newRow "e1" sampleData 7000).

(** The frame of [utils/websocket.ts] for an update. *)
Definition updateFrame (eventData : EventUpdate.t) : Text Frame :=
  JSON_stringify (Tagged "eventUpdate" "data" eventData).

(** The worker process of the second version: it calls
    [initializeWebSocketRedis] and never [setWebSocketClients]; it has no
    WebSocket server, so no socket event reaches it. *)
Definition workerStart : WebSocketV2.Process :=
  WebSocketV2.initializeWebSocketRedis WebSocketV2.fresh.

Definition workerEvent (ev : WsEvent) : Prop :=
  match ev with
  | Update _ | RedisMessage _ _ => True
  | _ => False
  end.

(** The updates the service handed over, oldest first. *)
Definition updatesOf (evs : list WsEvent) : list EventUpdate.t :=
  flat_map (fun ev => match ev with Update e => [e] | _ => [] end) evs.

(** What holds of a server process of the second version at every
    moment: Redis and the shared set are in place, no error was logged,
    the set holds exactly the sockets that are not closed, and every
    socket was sent the greeting first and update frames after it. *)
Definition serving (p : WebSocketV2.Process) : Prop :=
  WebSocketV2.connectedClients p = true
  /\ WebSocketV2.redisPublisher p = true
  /\ WebSocketV2.redisSubscriber p = true
  /\ WebSocketV2.errors p = 0%nat
  /\ (forall ws : nat,
        ws ∈ WebSocketV2.clients p
        <-> exists k : Socket,
              WebSocketV2.sockets p !! ws = Some k
              /\ readyState k <> CLOSED)
  /\ (forall (ws : nat) (k : Socket),
        WebSocketV2.sockets p !! ws = Some k ->
        exists rest : list (Text Frame),
          outbox k = ServerV2.greeting :: rest
          /\ Forall (fun text => exists e, text = updateFrame e) rest).

(** The frame the first [server.ts] builds in its own broadcast. *)
Definition payloadFrame (eventData : EventUpdate.t) : Text Frame :=
  JSON_stringify (Tagged "EVENT_UPDATE" "payload" eventData).

(** The list of the front end after the frames [texts], oldest first. *)
Definition afterFrames (texts : list (Text Frame))
    (events : list EventUpdate.t) : list EventUpdate.t :=
  foldl (fun events text => Frontend.onmessage text events) events texts.

(** A server process of the second version after the events [evs], and
    the first server after them. *)
Definition served (evs : list WsEvent) : WebSocketV2.Process :=
  ServerV2.run evs ServerV2.start.

Definition servedV1 (evs : list WsEvent) : ServerV1.Server :=
  ServerV1.run evs ServerV1.start.

(** * The e-mail check of the controller and of the form *)

(** Regular expressions over UTF-16 code units, as far as the pattern
    [/^[^\s@]+@[^\s@]+\.[^\s@]+$/] needs them.  The pattern has no flag,
    so it works on code units; [^] and [$] make [test] a match of the
    whole string. *)
Inductive Regex : Type :=
  | Empty
  | Eps
  | Class (member : N -> bool)
  | Seq (r1 r2 : Regex)
  | Alt (r1 r2 : Regex)
  | Star (r : Regex).

(** [r+]. *)
Definition Plus (r : Regex) : Regex := Seq r (Star r).

(** One given code unit. *)
Definition Chr (c : N) : Regex := Class (N.eqb c).

(** The strings a regular expression denotes. *)
Inductive matches : Regex -> list N -> Prop :=
  | matches_eps : matches Eps []
  | matches_class (member : N -> bool) (c : N) :
      member c = true -> matches (Class member) [c]
  | matches_seq (r1 r2 : Regex) (s1 s2 : list N) :
      matches r1 s1 -> matches r2 s2 -> matches (Seq r1 r2) (s1 ++ s2)
  | matches_alt_l (r1 r2 : Regex) (s : list N) :
      matches r1 s -> matches (Alt r1 r2) s
  | matches_alt_r (r1 r2 : Regex) (s : list N) :
      matches r2 s -> matches (Alt r1 r2) s
  | matches_star_nil (r : Regex) : matches (Star r) []
  | matches_star_app (r : Regex) (s1 s2 : list N) :
      matches r s1 -> matches (Star r) s2 -> matches (Star r) (s1 ++ s2).

(** Does the expression match the empty string? *)
Fixpoint nullable (r : Regex) : bool :=
  match r with
  | Empty => false
  | Eps => true
  | Class _ => false
  | Seq r1 r2 => nullable r1 && nullable r2
  | Alt r1 r2 => nullable r1 || nullable r2
  | Star _ => true
  end.

(** What is left to match after the code unit [c]. *)
Fixpoint derivative (c : N) (r : Regex) : Regex :=
  match r with
  | Empty => Empty
  | Eps => Empty
  | Class member => if member c then Eps else Empty
  | Seq r1 r2 =>
      if nullable r1
      then Alt (Seq (derivative c r1) r2) (derivative c r2)
      else Seq (derivative c r1) r2
  | Alt r1 r2 => Alt (derivative c r1) (derivative c r2)
  | Star r1 => Seq (derivative c r1) (Star r1)
  end.

(** [regex.test(s)] for an anchored pattern. *)
Definition test (r : Regex) (s : list N) : bool :=
  nullable (fold_left (fun r c => derivative c r) s r).

(** The code units [\s] matches: the white space and the line
    terminators of ECMAScript. *)
Definition isSpace (c : N) : bool :=
  ((9 <=? c) && (c <=? 13) || (c =? 32) || (c =? 160) || (c =? 5760)
   || (8192 <=? c) && (c <=? 8202) || (c =? 8232) || (c =? 8233)
   || (c =? 8239) || (c =? 8287) || (c =? 12288) || (c =? 65279))%N.

Definition at_sign : N := 64.
Definition full_stop : N := 46.

(** [[^\s@]]. *)
Definition plain (c : N) : bool := negb (isSpace c) && negb (c =? at_sign)%N.

(** [/^[^\s@]+@[^\s@]+\.[^\s@]+$/]. *)
Definition emailRegex : Regex :=
  Seq (Plus (Class plain))
    (Seq (Chr at_sign)
       (Seq (Plus (Class plain))
          (Seq (Chr full_stop) (Plus (Class plain))))).

(** A JavaScript string is a sequence of UTF-16 code units.  The strings
    of this development hold a text in UTF-8, as the string literals of
    this file do; a lone surrogate, which a JavaScript string may hold,
    is written as the three bytes of its value.  [utf16] reads the code
    units of the text off the bytes: a code point below 65536 is one
    unit, a higher one a surrogate pair.  A byte that starts no
    well-formed sequence (overlong forms and code points above 1114111
    are none) reads as U+FFFD. *)
Definition continuation (b : N) : bool := ((128 <=? b) && (b <? 192))%N.

Definition replacement : N := 65533.

Definition surrogates (codePoint : N) : list N :=
  [55296 + (codePoint - 65536) / 1024;
   56320 + (codePoint - 65536) mod 1024]%N.

Fixpoint utf16 (bytes : list N) : list N :=
  match bytes with
  | [] => []
  | b0 :: rest =>
      if (b0 <? 128)%N then b0 :: utf16 rest
      else
        match rest with
        | [] => [replacement]
        | b1 :: rest1 =>
            let two := ((b0 - 192) * 64 + (b1 - 128))%N in
            if ((192 <=? b0) && (b0 <? 224) && continuation b1
                && (128 <=? two))%N
            then two :: utf16 rest1
            else
              match rest1 with
              | [] => replacement :: utf16 rest
              | b2 :: rest2 =>
                  let three :=
                    ((b0 - 224) * 4096 + (b1 - 128) * 64 + (b2 - 128))%N in
                  if ((224 <=? b0) && (b0 <? 240) && continuation b1
                      && continuation b2 && (2048 <=? three))%N
                  then three :: utf16 rest2
                  else
                    match rest2 with
                    | [] => replacement :: utf16 rest
                    | b3 :: rest3 =>
                        let four :=
                          ((b0 - 240) * 262144 + (b1 - 128) * 4096
                           + (b2 - 128) * 64 + (b3 - 128))%N in
                        if ((240 <=? b0) && (b0 <? 248) && continuation b1
                            && continuation b2 && continuation b3
                            && (65536 <=? four) && (four <? 1114112))%N
                        then surrogates four ++ utf16 rest3
                        else replacement :: utf16 rest
                    end
              end
        end
  end.

(** The code units of a string. *)
Definition codes (s : string) : list N :=
  utf16 (map Ascii.N_of_ascii (list_ascii_of_string s)).

(** The bytes that hold one code unit, and the string that holds given
    code units. *)
Definition utf8 (unit : N) : list N :=
  if (unit <? 128)%N then [unit]
  else if (unit <? 2048)%N then [192 + unit / 64; 128 + unit mod 64]%N
  else [224 + unit / 4096; 128 + (unit / 64) mod 64; 128 + unit mod 64]%N.

Definition ofCodes (units : list N) : string :=
  string_of_list_ascii (map Ascii.ascii_of_N (flat_map utf8 units)).

(** [/^[^\s@]+@[^\s@]+\.[^\s@]+$/.test(recipientEmail)]. *)
Definition emailTest (recipientEmail : string) : bool :=
  test emailRegex (codes recipientEmail).

(** * The controller ([EventController.scheduleEvent]) and the error
      handler of [server.ts] *)

(** A member of [req.body] as the checks see it: absent, a string, or a
    value of another type. *)
Inductive BodyField : Type :=
  | Missing
  | Str (text : string)
  | NotString.

(** [req.body], the object [express.json()] left there, as far as the
    controller reads it. *)
Module Body.
Record t : Type := {
  message : BodyField;
  recipientEmail : BodyField;
  send_at : BodyField
}.
End Body.

(** The [event] object of the 201 response. *)
Module ScheduledView.
Record t : Type := {
  id : string;
  message : string;
  recipientEmail : string;
  sendAt : ISOString;
  status : EventStatus
}.
End ScheduledView.

(** What [res.json] is given. *)
Inductive ResponseBody : Type :=
  | OnlyMessage (message : string)
  | WithEvent (message : string) (event : ScheduledView.t)
  | WithError (message error : string).

Record Response : Type := {
  statusCode : Z;
  json : ResponseBody
}.

(** How a handler ends: it responds, or it calls [next(error)]. *)
Inductive Reply : Type :=
  | Responded (response : Response)
  | Next (error : string).

(** [!field || typeof field !== "string"] is false exactly for a string
    that is not empty; the string is then what the code goes on with. *)
Definition asText (field : BodyField) : option string :=
  match field with
  | Str text => if bool_decide (text = "") then None else Some text
  | Missing | NotString => None
  end.

Definition badRequest (message : string) : Reply :=
  Responded {| statusCode := 400; json := OnlyMessage message |}.

Module EventController.

(** [Date_parse] stands for [new Date(send_at)]: the instant, or [None]
    when [getTime()] is [NaN]. *)
Definition scheduleEvent (Date_parse : string -> option Z)
    (env : ScheduleEnv) (body : Body.t) (w : World) : Reply * World :=
  match asText (Body.message body) with
  | None =>
      (badRequest "Message content is required and must be a string.", w)
  | Some messageText =>
      match asText (Body.recipientEmail body) with
      | None => (badRequest "Valid recipient email is required.", w)
      | Some recipient =>
          if negb (emailTest recipient) then
            (badRequest "Valid recipient email is required.", w)
          else
            match asText (Body.send_at body) with
            | None =>
                (badRequest "Send time (send_at) is required and must be a string (ISO 8601 format).",
                 w)
            | Some send_at =>
                match Date_parse send_at with
                | None =>
                    (badRequest "Invalid send_at format. Please use ISO 8601 (e.g., 2025-07-14T15:30:00Z).",
                     w)
                | Some sendAtDate =>
                    match
                      EventService.scheduleEvent env
                        {| CreateEventData.message := messageText;
                           CreateEventData.recipientEmail := recipient;
                           CreateEventData.sendAt := sendAtDate |} w
                    with
                    | (Ok newEvent, w') =>
                        (Responded
                           {| statusCode := 201;
                              json :=
                                WithEvent "Event scheduled successfully!"
                                  {| ScheduledView.id := id newEvent;
                                     ScheduledView.message :=
                                       message newEvent;
                                     ScheduledView.recipientEmail :=
                                       recipientEmail newEvent;
                                     ScheduledView.sendAt :=
                                       toISOString (sendAt newEvent);
                                     ScheduledView.status :=
                                       status newEvent |} |},
                         w')
                    | (Throw error, w') => (Next error, w')
                    end
                end
            end
      end
  end.

End EventController.

(** The error-handling middleware of [server.ts]. *)
Definition errorHandler (error : string) : Response := {|
  statusCode := 500;
  json := WithError "Something went wrong!" error
|}.

(** [POST /api/events]: the controller, then the error handler when the
    controller called [next(error)]. *)
Definition postEvents (Date_parse : string -> option Z)
    (env : ScheduleEnv) (body : Body.t) (w : World) : Response * World :=
  match EventController.scheduleEvent Date_parse env body w with
  | (Responded response, w') => (response, w')
  | (Next error, w') => (errorHandler error, w')
  end.

(** A body passes the checks of the controller. *)
Definition accepted (Date_parse : string -> option Z) (body : Body.t)
    (data : CreateEventData.t) : Prop :=
  Body.message body = Str (CreateEventData.message data)
  /\ CreateEventData.message data <> ""
  /\ Body.recipientEmail body = Str (CreateEventData.recipientEmail data)
  /\ emailTest (CreateEventData.recipientEmail data) = true
  /\ exists send_at : string,
       Body.send_at body = Str send_at
       /\ send_at <> ""
       /\ Date_parse send_at = Some (CreateEventData.sendAt data).

(** A sample body and a parser that knows one date. *)
Definition sampleBody : Body.t := {|
  Body.message := Str "hello";
  Body.recipientEmail := Str "user@example.com";
  Body.send_at := Str "1970-01-01T00:00:05Z"
|}.

Definition sampleParse (text : string) : option Z :=
  if bool_decide (text = "1970-01-01T00:00:05Z") then Some 5000 else None.

(** * The queue and the bus against the table *)

(** The key of a job added to the queue. *)
Definition jobKey (j : QueuedJob.t) : string :=
  JobsOptions.jobId (QueuedJob.opts j).

(** A job added to the queue is for a row of the table: its key and its
    event id are the row's key, its data are the row's recipient and
    message, it is tried once and its delay is not negative. *)
Definition job_fits (w : World) (j : QueuedJob.t) : Prop :=
  SendEventJobData.eventId (QueuedJob.data j) = jobKey j
  /\ JobsOptions.attempts (QueuedJob.opts j) = 1
  /\ 0 <= JobsOptions.delay (QueuedJob.opts j)
  /\ exists row : Event,
       db w !! jobKey j = Some row
       /\ recipientEmail row
          = SendEventJobData.recipientEmail (QueuedJob.data j)
       /\ message row = SendEventJobData.message (QueuedJob.data j).

(** The queue as the table would have it: one job a key, each for a
    row. *)
Definition queue_fits (w : World) : Prop :=
  NoDup (map jobKey (enqueued (effects w)))
  /\ Forall (job_fits w) (enqueued (effects w)).


(** * Equations of the service methods *)

Section ServiceEquations.

Context (w : World).

(** [log] appends to the log and leaves the table alone. *)
Lemma effects_log (x : Effect) : effects (log x w) = effects w ++ [x].
Proof. reflexivity. Qed.

Lemma db_log (x : Effect) : db (log x w) = db w.
Proof. reflexivity. Qed.

(** [updateEventStatus] either changes nothing and throws, or writes
    one row and hands that row to the bus. *)
Lemma updateEventStatus_eq (c : DbCall) (key : string)
    (newStatus : EventStatus) (newRetryCount : option Z) :
  EventService.updateEventStatus c key newStatus newRetryCount w =
    if rejects c then (Throw "Failed to update event status.", w)
    else
      match db w !! key with
      | None => (Throw "Failed to update event status.", w)
      | Some old =>
          let row :=
            EventModel.applyUpdate old
              {| UpdateEventData.status := Some newStatus;
                 UpdateEventData.retryCount := newRetryCount |}
              (stamp c) in
          (Ok row,
           {| db := <[key := row]> (db w);
              effects :=
                effects w
                ++ [DbUpdate row; Broadcast (EventService.eventData row)] |})
      end.
Proof.
  unfold EventService.updateEventStatus, try_catch, bind,
    EventModel.updateEvent, broadcastEventUpdate, emit, ret, throw, log.
  destruct (rejects c); [reflexivity|].
  destruct (db w !! key) as [old|]; [|reflexivity].
  cbn. now rewrite <- app_assoc.
Qed.

(** [getEventDetails] returns the row under the key, or [None]. *)
Lemma getEventDetails_eq (fails : bool) (key : string) :
  EventService.getEventDetails fails key w =
    if fails then (Throw "Failed to retrieve event details.", w)
    else (Ok (db w !! key), log (DbRead key (db w !! key)) w).
Proof.
  unfold EventService.getEventDetails, try_catch, bind,
    EventModel.getEventById, ret, throw.
  now destruct fails.
Qed.

(** The three ways a call of [scheduleEvent] ends. *)
Lemma scheduleEvent_eq (env : ScheduleEnv) (data : CreateEventData.t) :
  EventService.scheduleEvent env data w =
    if rejects (create env) then (Throw "Failed to schedule event.", w)
    else
      match db w !! uuid env with
      | Some _ => (Throw "Failed to schedule event.", w)
      | None =>
          let newEvent :=
            EventModel.newRow (uuid env) data (stamp (create env)) in
          let stored := <[uuid env := newEvent]> (db w) in
          if addRejects env then
            (Throw "Failed to schedule event.",
             {| db := stored; effects := effects w ++ [DbCreate newEvent] |})
          else
            let job := {|
              QueuedJob.name := "sendEvent";
              QueuedJob.data := {|
                SendEventJobData.eventId := uuid env;
                SendEventJobData.recipientEmail :=
                  CreateEventData.recipientEmail data;
                SendEventJobData.message := CreateEventData.message data |};
              QueuedJob.opts := {|
                JobsOptions.delay :=
                  Z.max 0 (CreateEventData.sendAt data - dateNow env);
                JobsOptions.attempts := 1;
                JobsOptions.removeOnComplete := true;
                JobsOptions.removeOnFail := false;
                JobsOptions.jobId := uuid env |} |} in
            (Ok newEvent,
             {| db := stored;
                effects :=
                  effects w
                  ++ [DbCreate newEvent; QueueAdd job;
                      Broadcast (EventService.eventData newEvent)] |})
      end.
Proof.
  unfold EventService.scheduleEvent, try_catch, bind,
    EventModel.createEvent, eventQueue_add, broadcastEventUpdate, emit,
    ret, throw, log.
  destruct (rejects (create env)); [reflexivity|].
  destruct (db w !! uuid env) as [clash|]; [reflexivity|].
  destruct (addRejects env); cbn; [reflexivity|].
  now rewrite <- !app_assoc.
Qed.

End ServiceEquations.

(** Reading the log distributes over appending to it. *)
Lemma enqueued_app (l1 l2 : list Effect) :
  enqueued (l1 ++ l2) = enqueued l1 ++ enqueued l2.
Proof. apply flat_map_app. Qed.

Lemma published_app (l1 l2 : list Effect) :
  published (l1 ++ l2) = published l1 ++ published l2.
Proof. apply flat_map_app. Qed.

(** * The scheduler *)

(** C5. Within every call of [scheduleEvent] that returns the created
    event, the three side effects happen in this order and are all done
    when the call returns: the row is created in the table, then the job
    is handed to the queue, then the update is handed to the bus. *)
Theorem scheduleEvent_effect_order (env : ScheduleEnv)
    (data : CreateEventData.t) (w w' : World) (newEvent : Event) :
  EventService.scheduleEvent env data w = (Ok newEvent, w') ->
  exists job : QueuedJob.t,
    effects w' =
      effects w
      ++ [DbCreate newEvent; QueueAdd job;
          Broadcast (EventService.eventData newEvent)]
    /\ db w !! id newEvent = None
    /\ db w' !! id newEvent = Some newEvent.
Proof.
  rewrite scheduleEvent_eq.
  destruct (rejects (create env)); [discriminate|].
  destruct (db w !! uuid env) as [clash|] eqn:Hfresh; [discriminate|].
  destruct (addRejects env); cbn; [discriminate|].
  intros [= <- <-]. eexists. cbn.
  split; [reflexivity|]. split; [assumption|]. apply lookup_insert_eq.
Qed.

Lemma scheduleEvent_effect_order_witness :
  exists (newEvent : Event) (job : QueuedJob.t),
    effects (snd (EventService.scheduleEvent sampleSchedule sampleData initial))
    = effects initial
      ++ [DbCreate newEvent; QueueAdd job;
          Broadcast (EventService.eventData newEvent)].
Proof.
  exists (EventModel.newRow "e1" sampleData 7000).
  destruct (scheduleEvent_effect_order sampleSchedule sampleData initial
              (snd (EventService.scheduleEvent sampleSchedule sampleData initial))
              (EventModel.newRow "e1" sampleData 7000))
    as (job & Horder & _).
  - vm_compute. reflexivity.
  - exists job. exact Horder.
Defined.

(** C6. If the durable create fails (the database rejects the insert, or
    the key is taken), [scheduleEvent] fails with an error and leaves the
    world as it was: nothing is stored, enqueued or broadcast. *)
Theorem scheduleEvent_create_fails (env : ScheduleEnv)
    (data : CreateEventData.t) (w w1 : World) (error : string) :
  EventModel.createEvent (create env) (uuid env) data w = (Throw error, w1) ->
  EventService.scheduleEvent env data w
  = (Throw "Failed to schedule event.", w).
Proof.
  rewrite scheduleEvent_eq. unfold EventModel.createEvent.
  destruct (rejects (create env)); [reflexivity|].
  destruct (db w !! uuid env); [reflexivity|discriminate].
Qed.

Lemma scheduleEvent_create_fails_witness :
  EventService.scheduleEvent
    {| uuid := "e1"; create := down 7000; dateNow := 7001;
       addRejects := false |} sampleData initial
  = (Throw "Failed to schedule event.", initial).
Proof.
  apply (scheduleEvent_create_fails _ _ _ initial "Database unavailable.").
  vm_compute. reflexivity.
Defined.

(** C9. When the insert and the enqueue go through, [scheduleEvent]
    returns the created row, stored with status [SCHEDULED] and
    [retryCount] 0, and hands exactly one job to the queue, whose [jobId]
    is the row's id and whose delay is [max(0, sendAt - now)]; a [sendAt]
    that is not in the future gives delay 0 and is accepted all the same. *)
Theorem scheduleEvent_creates_and_enqueues (env : ScheduleEnv)
    (data : CreateEventData.t) (w : World) :
  rejects (create env) = false ->
  db w !! uuid env = None ->
  addRejects env = false ->
  exists (newEvent : Event) (job : QueuedJob.t) (w' : World),
    EventService.scheduleEvent env data w = (Ok newEvent, w')
    /\ db w' !! id newEvent = Some newEvent
    /\ status newEvent = SCHEDULED
    /\ retryCount newEvent = 0
    /\ enqueued (effects w') = enqueued (effects w) ++ [job]
    /\ JobsOptions.jobId (QueuedJob.opts job) = id newEvent
    /\ SendEventJobData.eventId (QueuedJob.data job) = id newEvent
    /\ JobsOptions.delay (QueuedJob.opts job)
       = Z.max 0 (CreateEventData.sendAt data - dateNow env)
    /\ (CreateEventData.sendAt data <= dateNow env ->
        JobsOptions.delay (QueuedJob.opts job) = 0).
Proof.
  intros Hup Hfresh Hadd.
  rewrite scheduleEvent_eq, Hup, Hfresh, Hadd. cbv zeta.
  do 3 eexists. split; [reflexivity|]. cbn -[Z.max].
  split; [apply lookup_insert_eq|].
  do 2 (split; [reflexivity|]).
  split; [now rewrite enqueued_app|].
  do 3 (split; [reflexivity|]).
  intros Hpast. apply Z.max_l. lia.
Qed.

(** A request whose [sendAt] (5000) is in the past of [Date.now()] (7001). *)
Lemma scheduleEvent_creates_and_enqueues_witness :
  exists (newEvent : Event) (job : QueuedJob.t) (w' : World),
    EventService.scheduleEvent sampleSchedule sampleData initial
    = (Ok newEvent, w')
    /\ status newEvent = SCHEDULED
    /\ retryCount newEvent = 0
    /\ enqueued (effects w') = [job]
    /\ JobsOptions.jobId (QueuedJob.opts job) = "e1"
    /\ JobsOptions.delay (QueuedJob.opts job) = 0.
Proof.
  destruct (scheduleEvent_creates_and_enqueues sampleSchedule sampleData
              initial)
    as (newEvent & job & w' & Hrun & _ & Hstatus & Hcount & Hqueue & Hid
        & _ & _ & Hpast);
    [reflexivity | reflexivity | reflexivity |].
  exists newEvent, job, w'.
  repeat split; try assumption.
  - rewrite Hid.
    assert (Hrow : Ok newEvent
                   = Ok (EventModel.newRow "e1" sampleData 7000)).
    { generalize (f_equal fst Hrun). vm_compute. congruence. }
    injection Hrow as ->. reflexivity.
  - apply Hpast. vm_compute. discriminate.
Defined.

(** C10. When the insert goes through and the enqueue throws,
    [scheduleEvent] throws "Failed to schedule event."; the row stays in
    the table with status [SCHEDULED] and [retryCount] 0 (the insert is
    not undone), and neither a job nor a broadcast follows it. *)
Theorem scheduleEvent_enqueue_fails (env : ScheduleEnv)
    (data : CreateEventData.t) (w : World) :
  rejects (create env) = false ->
  db w !! uuid env = None ->
  addRejects env = true ->
  exists (newEvent : Event) (w' : World),
    EventService.scheduleEvent env data w
    = (Throw "Failed to schedule event.", w')
    /\ db w' !! uuid env = Some newEvent
    /\ status newEvent = SCHEDULED
    /\ retryCount newEvent = 0
    /\ effects w' = effects w ++ [DbCreate newEvent]
    /\ enqueued (effects w') = enqueued (effects w)
    /\ published (effects w') = published (effects w).
Proof.
  intros Hup Hfresh Hadd.
  rewrite scheduleEvent_eq, Hup, Hfresh, Hadd. cbn.
  do 2 eexists. split; [reflexivity|]. cbn.
  split; [apply lookup_insert_eq|].
  rewrite enqueued_app, published_app. cbn.
  now rewrite !app_nil_r.
Qed.

Lemma scheduleEvent_enqueue_fails_witness :
  exists (newEvent : Event) (w' : World),
    EventService.scheduleEvent queueDown sampleData initial
    = (Throw "Failed to schedule event.", w')
    /\ db w' !! "e1" = Some newEvent
    /\ status newEvent = SCHEDULED
    /\ retryCount newEvent = 0
    /\ published (effects w') = [].
Proof.
  destruct (scheduleEvent_enqueue_fails queueDown sampleData initial)
    as (newEvent & w' & Hrun & Hrow & Hstatus & Hcount & _ & _ & Hbus);
    [reflexivity | reflexivity | reflexivity |].
  exists newEvent, w'. repeat split; assumption.
Defined.

(** * The processor *)

(** A run with the database reachable throughout, on a row that
    exists. *)
Lemma eventWorker_undisturbed (env : AttemptEnv) (job : Job.t) (w : World)
    (old : Event) :
  let key := SendEventJobData.eventId (Job.data job) in
  db w !! key = Some old ->
  rejects (markProcessing env) = false ->
  readRejects env = false ->
  rejects (markResult env) = false ->
  eventWorker env job w =
    (verdict env job old,
     {| db := <[key := resultRow env old]> (db w);
        effects :=
          effects w ++ openingEffects env job old
          ++ retryEffects env job old ++ closingEffects env old |}).
Proof.
  intros key Hrow Hup1 Hread Hup2.
  unfold eventWorker, try_catch, bind. fold key.
  rewrite updateEventStatus_eq, Hup1, Hrow. cbv zeta.
  fold (processingRow env old).
  unfold simulateSendMessage, bind, emit, ret, throw, verdict,
    retryEffects, closingEffects, openingEffects, resultRow.
  fold key.
  destruct (sendSuccess env).
  - rewrite updateEventStatus_eq, Hup2. cbn [db effects log].
    rewrite lookup_insert_eq. cbv zeta.
    rewrite insert_insert_eq, <- !app_assoc. reflexivity.
  - rewrite getEventDetails_eq, Hread. cbn [db effects log].
    rewrite lookup_insert_eq.
    destruct (retryCount (processingRow env old) <? MAX_RETRIES).
    + rewrite updateEventStatus_eq, Hup2. cbn [db effects log].
      rewrite lookup_insert_eq. cbv zeta.
      rewrite insert_insert_eq, <- !app_assoc. reflexivity.
    + rewrite updateEventStatus_eq, Hup2. cbn [db effects log].
      rewrite lookup_insert_eq. cbv zeta.
      rewrite insert_insert_eq, <- !app_assoc. reflexivity.
Qed.

(** Two descriptions of one world that differ in how the log is
    bracketed. *)
Ltac same_log :=
  unfold log; cbn [db effects]; rewrite <- ?app_assoc; cbn [app];
  rewrite ?app_nil_r; reflexivity.

(** Every run of the processor ends in one of three ways: the first
    update throws and nothing changed; or the row is left [PROCESSING]
    because the read or the last update was rejected; or the run wrote
    its last update. *)
Lemma eventWorker_cases (env : AttemptEnv) (job : Job.t) (w : World) :
  let key := SendEventJobData.eventId (Job.data job) in
  ((rejects (markProcessing env) = true \/ db w !! key = None)
   /\ eventWorker env job w = (Throw "Failed to update event status.", w))
  \/ (exists (old : Event) (error : string),
        db w !! key = Some old
        /\ eventWorker env job w =
             (Throw error,
              {| db := <[key := processingRow env old]> (db w);
                 effects :=
                   effects w ++ openingEffects env job old
                   ++ (if readRejects env then []
                       else retryEffects env job old) |}))
  \/ (exists old : Event,
        db w !! key = Some old
        /\ eventWorker env job w =
             (verdict env job old,
              {| db := <[key := resultRow env old]> (db w);
                 effects :=
                   effects w ++ openingEffects env job old
                   ++ retryEffects env job old
                   ++ closingEffects env old |})).
Proof.
  intros key.
  destruct (rejects (markProcessing env)) eqn:Hup1.
  { left. split; [now left|]. unfold eventWorker, try_catch, bind.
    now rewrite updateEventStatus_eq, Hup1. }
  destruct (db w !! key) as [old|] eqn:Hrow.
  2:{ left. split; [now right|]. unfold eventWorker, try_catch, bind.
      fold key. now rewrite updateEventStatus_eq, Hup1, Hrow. }
  destruct (rejects (markResult env)) eqn:Hup2;
    [|destruct (readRejects env) eqn:Hread].
  - right; left. exists old.
    unfold eventWorker, try_catch, bind. fold key.
    rewrite updateEventStatus_eq, Hup1, Hrow. cbv zeta.
    fold (processingRow env old).
    unfold simulateSendMessage, bind, emit, ret, throw, retryEffects,
      openingEffects.
    fold key.
    destruct (sendSuccess env).
    + rewrite updateEventStatus_eq, Hup2. cbn [db effects log].
      eexists. split; [reflexivity|].
      destruct (readRejects env); same_log.
    + rewrite getEventDetails_eq. cbn [db effects log].
      destruct (readRejects env).
      * eexists. split; [reflexivity|]. same_log.
      * cbn [db effects log]. rewrite lookup_insert_eq.
        destruct (retryCount (processingRow env old) <? MAX_RETRIES);
          rewrite updateEventStatus_eq, Hup2; cbn [db effects log];
          eexists; (split; [reflexivity|]); same_log.
  - destruct (sendSuccess env) eqn:Hsend.
    + right; right. exists old. split; [reflexivity|].
      unfold eventWorker, try_catch, bind. fold key.
      rewrite updateEventStatus_eq, Hup1, Hrow. cbv zeta.
      fold (processingRow env old).
      unfold simulateSendMessage, bind, emit, ret, throw, verdict,
        retryEffects, closingEffects, openingEffects, resultRow.
      rewrite Hsend, updateEventStatus_eq, Hup2. cbn [db effects log].
      rewrite lookup_insert_eq. cbv zeta.
      rewrite insert_insert_eq. same_log.
    + right; left. exists old.
      unfold eventWorker, try_catch, bind. fold key.
      rewrite updateEventStatus_eq, Hup1, Hrow. cbv zeta.
      fold (processingRow env old).
      unfold simulateSendMessage, bind, emit, ret, throw, openingEffects.
      rewrite Hsend, getEventDetails_eq, Hread. cbn [db effects log].
      eexists. split; [reflexivity|]. same_log.
  - right; right. exists old. split; [reflexivity|].
    now apply eventWorker_undisturbed.
Qed.

(** * The retry decision *)

(** The delays of the first, second and third retry. *)
Lemma retryDelay_values :
  retryDelay 0 = 1000 /\ retryDelay 1 = 2000 /\ retryDelay 2 = 4000.
Proof. repeat split. Qed.

(** The status and the retry count an undisturbed run leaves, by the
    outcome of the send and the retry count [r] of the row. *)
Lemma retry_decision (env : AttemptEnv) (old : Event) :
  let r := retryCount old in
  let next := resultRow env old in
  (sendSuccess env = true -> status next = SENT /\ retryCount next = r)
  /\ (sendSuccess env = false -> r < MAX_RETRIES ->
      status next = RETRIED /\ retryCount next = r + 1)
  /\ (sendSuccess env = false -> MAX_RETRIES <= r ->
      status next = FAILED /\ retryCount next = r).
Proof.
  cbv zeta. unfold resultRow. split; [|split].
  - intros ->. now split.
  - intros -> Hr. cbn.
    destruct (Z.ltb_spec (retryCount old) MAX_RETRIES); [now split|lia].
  - intros -> Hr. cbn.
    destruct (Z.ltb_spec (retryCount old) MAX_RETRIES); [lia|now split].
Qed.

(** No run of the processor hands a job to the queue. *)
Lemma eventWorker_never_enqueues (env : AttemptEnv) (job : Job.t)
    (w : World) :
  enqueued (effects (snd (eventWorker env job w))) = enqueued (effects w).
Proof.
  destruct (eventWorker_cases env job w)
    as [[_ ->] | [(old & error & _ & ->) | (old & _ & ->)]];
    [reflexivity | |]; cbn [snd effects];
    rewrite !enqueued_app; unfold retryEffects;
    destruct (readRejects env), (sendSuccess env),
      (retryCount (processingRow env old) <? MAX_RETRIES);
    cbn; now rewrite ?app_nil_r.
Qed.

(** C1. On a failed send for a row whose retry count is 0, the processor
    records [RETRIED] with retry count 1, as the transition table has it,
    and re-arms nothing: the queue is handed no job. *)
Theorem failed_attempt_not_rearmed :
  let w' := step (Attempt (attemptAt 7100 false) sampleJob) scheduled in
  (status <$> db scheduled !! "e1") = Some SCHEDULED
  /\ (retryCount <$> db scheduled !! "e1") = Some 0
  /\ (status <$> db w' !! "e1") = Some RETRIED
  /\ (retryCount <$> db w' !! "e1") = Some 1
  /\ enqueued (effects w') = enqueued (effects scheduled).
Proof.
  cbv zeta. do 4 (split; [vm_compute; reflexivity|]).
  apply eventWorker_never_enqueues.
Qed.

(** C2. Three failed sends in a row for one row (each job released by
    hand) compute the delays 1000, 2000 and 4000 ms and announce them on
    the console, and enqueue no job: the only job the queue ever got is
    the scheduler's, added with [attempts: 1]. *)
Theorem backoff_announced_never_enqueued :
  let w' :=
    run [Attempt (attemptAt 7100 false) sampleJob;
         Attempt (attemptAt 8100 false) sampleJob;
         Attempt (attemptAt 10100 false) sampleJob] scheduled in
  announcedDelays (effects w') = [1000; 2000; 4000]
  /\ (status <$> db w' !! "e1") = Some RETRIED
  /\ (retryCount <$> db w' !! "e1") = Some 3
  /\ enqueued (effects w') = enqueued (effects scheduled)
  /\ map (fun j => (JobsOptions.jobId (QueuedJob.opts j),
                    JobsOptions.attempts (QueuedJob.opts j)))
       (enqueued (effects w'))
     = [("e1", 1)].
Proof.
  cbv zeta. split; [|split; [|split; [|split]]]; vm_compute; reflexivity.
Qed.

(** * What one operation does to the table *)

(** Both rows a run can leave evolve from the row it found. *)
Lemma processingRow_evolves (env : AttemptEnv) (old : Event) :
  evolves old (processingRow env old).
Proof. left. now split. Qed.

Lemma resultRow_evolves (env : AttemptEnv) (old : Event) :
  evolves old (resultRow env old).
Proof.
  unfold evolves, resultRow.
  destruct (sendSuccess env); [left; now split|].
  change (retryCount (processingRow env old)) with (retryCount old).
  destruct (Z.ltb_spec (retryCount old) MAX_RETRIES); cbn.
  - right. now repeat split.
  - left. now split.
Qed.

(** An operation leaves the table as it was, or inserts a fresh row with
    status [SCHEDULED] and retry count 0, or replaces the row of its
    target by one that evolves from it. *)
Lemma step_db (op : Op) (w : World) :
  db (step op w) = db w
  \/ (exists (key : string) (row : Event),
        db (step op w) = <[key := row]> (db w)
        /\ db w !! key = None
        /\ status row = SCHEDULED
        /\ retryCount row = 0)
  \/ (exists (key : string) (old row : Event),
        db (step op w) = <[key := row]> (db w)
        /\ target op = Some key
        /\ db w !! key = Some old
        /\ evolves old row).
Proof.
  destruct op as [env data | env job]; cbn [step target].
  - rewrite scheduleEvent_eq.
    destruct (rejects (create env)); [now left|].
    destruct (db w !! uuid env) eqn:Hfresh; [now left|].
    right; left. exists (uuid env), (EventModel.newRow (uuid env) data
                                       (stamp (create env))).
    now destruct (addRejects env).
  - destruct (eventWorker_cases env job w)
      as [[_ ->] | [(old & error & Hrow & ->) | (old & Hrow & ->)]];
      [now left | |]; right; right; cbn [snd db].
    + exists (SendEventJobData.eventId (Job.data job)), old,
        (processingRow env old).
      auto using processingRow_evolves.
    + exists (SendEventJobData.eventId (Job.data job)), old,
        (resultRow env old).
      auto using resultRow_evolves.
Qed.

(** Running a sequence is running its parts one after the other. *)
Lemma run_snoc (ops : list Op) (op : Op) (w : World) :
  run (ops ++ [op]) w = step op (run ops w).
Proof. unfold run. now rewrite fold_left_app. Qed.

Lemma run_app (ops more : list Op) (w : World) :
  run (ops ++ more) w = run more (run ops w).
Proof. unfold run. now rewrite fold_left_app. Qed.

(** * Bounds on the retry count *)

(** The bounds are kept by every row that evolves from a row within
    bounds, hence by every operation and every sequence. *)
Lemma evolves_row_ok (old new : Event) :
  row_ok old -> evolves old new -> row_ok new.
Proof.
  unfold row_ok, evolves, MAX_RETRIES.
  intros [Hbound Hfailed] [[Hsame Hceiling] | (Hnext & Hbelow & Hstatus)];
    split; try lia.
  - intros Hnew. specialize (Hceiling Hnew). lia.
  - rewrite Hstatus. discriminate.
Qed.

Lemma step_table_ok (op : Op) (w : World) :
  table_ok w -> table_ok (step op w).
Proof.
  intros Hok key e.
  destruct (step_db op w)
    as [-> | [(k & row & -> & _ & Hstatus & Hcount)
             | (k & old & row & -> & _ & Hold & Hevolves)]];
    [apply Hok | |]; rewrite lookup_insert;
    case_decide; try apply Hok; intros [= <-].
  - unfold row_ok, MAX_RETRIES. rewrite Hstatus, Hcount.
    split; [lia|discriminate].
  - eauto using evolves_row_ok.
Qed.

Lemma run_table_ok (ops : list Op) (w : World) :
  table_ok w -> table_ok (run ops w).
Proof.
  induction ops as [|op ops IH] using rev_ind; [easy|].
  rewrite run_snoc. auto using step_table_ok.
Qed.

Lemma initial_table_ok : table_ok initial.
Proof. intros key e. cbn. now rewrite lookup_empty. Qed.

(** A row, once in the table, stays, and its retry count does not go
    down. *)
Lemma step_monotone (op : Op) (w : World) (key : string) (e : Event) :
  db w !! key = Some e ->
  exists e' : Event,
    db (step op w) !! key = Some e' /\ retryCount e <= retryCount e'.
Proof.
  intros Hrow.
  destruct (step_db op w)
    as [-> | [(k & row & -> & Hfresh & _)
             | (k & old & row & -> & _ & Hold & Hevolves)]].
  - exists e. split; [assumption|lia].
  - rewrite lookup_insert_ne by congruence.
    exists e. split; [assumption|lia].
  - rewrite lookup_insert. case_decide as Hkey.
    + subst k. rewrite Hrow in Hold. injection Hold as <-.
      exists row. split; [reflexivity|].
      destruct Hevolves as [[-> _] | (-> & _)]; lia.
    + exists e. split; [assumption|lia].
Qed.

Lemma run_monotone (more : list Op) (w : World) (key : string) (e : Event) :
  db w !! key = Some e ->
  exists e' : Event,
    db (run more w) !! key = Some e' /\ retryCount e <= retryCount e'.
Proof.
  intros Hrow. induction more as [|op more IH] using rev_ind.
  - exists e. split; [assumption|lia].
  - destruct IH as (e1 & Hrow1 & Hle1).
    rewrite run_snoc.
    destruct (step_monotone op _ _ _ Hrow1) as (e2 & Hrow2 & Hle2).
    exists e2. split; [assumption|lia].
Qed.

(** Only the scheduler makes rows, and it makes them with retry count 0. *)
Lemma step_new_row (op : Op) (w : World) (key : string) (e : Event) :
  db w !! key = None ->
  db (step op w) !! key = Some e ->
  status e = SCHEDULED /\ retryCount e = 0.
Proof.
  intros Hnone.
  destruct (step_db op w)
    as [-> | [(k & row & -> & _ & Hstatus & Hcount)
             | (k & old & row & -> & _ & Hold & _)]].
  - congruence.
  - rewrite lookup_insert. case_decide; [|congruence].
    now intros [= <-].
  - rewrite lookup_insert_ne by congruence. congruence.
Qed.

(** Every row of a reachable table was first seen right after some
    operation, with status [SCHEDULED] and retry count 0. *)
Lemma run_first_row (ops : list Op) (key : string) (e : Event) :
  db (run ops initial) !! key = Some e ->
  exists (n : nat) (first : Event),
    (n < length ops)%nat
    /\ db (run (take n ops) initial) !! key = None
    /\ db (run (take (S n) ops) initial) !! key = Some first
    /\ status first = SCHEDULED
    /\ retryCount first = 0.
Proof.
  revert e. induction ops as [|op ops IH] using rev_ind; intros e.
  - cbn. now rewrite lookup_empty.
  - rewrite run_snoc. intros Hrow.
    destruct (db (run ops initial) !! key) as [before|] eqn:Hbefore.
    + destruct (IH before eq_refl) as (n & first & Hn & H0 & H1 & Hfirst).
      exists n, first. rewrite length_app. cbn [length].
      rewrite !take_app_le by lia. split; [lia|]. auto.
    + exists (length ops), e. rewrite length_app. cbn [length].
      rewrite take_app_le, firstn_all by lia.
      rewrite firstn_all2 by (rewrite length_app; cbn; lia).
      rewrite run_snoc.
      split; [lia|]. split; [assumption|]. split; [assumption|].
      eapply step_new_row; eassumption.
Qed.

(** C3. Over every sequence of operations of the core, started from the
    empty table: a row is made with retry count 0; at every moment its
    retry count lies between 0 and 3, and is 3 whenever its status is
    [FAILED]; and whatever operations come next, the row is still there
    and its retry count has not gone down. *)
Theorem retryCount_invariant (ops more : list Op) (key : string)
    (e : Event) :
  db (run ops initial) !! key = Some e ->
  (exists (n : nat) (first : Event),
      db (run (take n ops) initial) !! key = None
      /\ db (run (take (S n) ops) initial) !! key = Some first
      /\ retryCount first = 0)
  /\ 0 <= retryCount e <= MAX_RETRIES
  /\ (status e = FAILED -> retryCount e = MAX_RETRIES)
  /\ (exists e' : Event,
        db (run (ops ++ more) initial) !! key = Some e'
        /\ retryCount e <= retryCount e').
Proof.
  intros Hrow.
  split.
  { destruct (run_first_row ops key e Hrow)
      as (n & first & _ & H0 & H1 & _ & Hcount).
    now exists n, first. }
  destruct (run_table_ok ops initial initial_table_ok key e Hrow)
    as [Hbound Hfailed].
  do 2 (split; [assumption|]).
  rewrite run_app. now apply run_monotone.
Qed.

Lemma retryCount_invariant_witness :
  db (run exhausted initial) !! "e1" = Some exhaustedRow
  /\ 0 <= retryCount exhaustedRow <= MAX_RETRIES
  /\ (status exhaustedRow = FAILED -> retryCount exhaustedRow = MAX_RETRIES)
  /\ exists e' : Event,
       db (run (exhausted ++ [Attempt (attemptAt 20000 false) sampleJob])
             initial) !! "e1" = Some e'
       /\ retryCount exhaustedRow <= retryCount e'.
Proof.
  assert (Hrow : db (run exhausted initial) !! "e1" = Some exhaustedRow)
    by (vm_compute; reflexivity).
  split; [exact Hrow|].
  exact (proj2 (retryCount_invariant exhausted
                  [Attempt (attemptAt 20000 false) sampleJob] "e1"
                  exhaustedRow Hrow)).
Defined.

(** * Terminal states *)

(** An operation that spares a row leaves it as it is. *)
Lemma step_spares (op : Op) (w : World) (key : string) :
  spares key op ->
  is_Some (db w !! key) ->
  db (step op w) !! key = db w !! key.
Proof.
  intros Hspares [e Hrow].
  destruct (step_db op w)
    as [-> | [(k & row & -> & Hfresh & _)
             | (k & old & row & -> & Htarget & _)]].
  - reflexivity.
  - apply lookup_insert_ne. congruence.
  - apply lookup_insert_ne. unfold spares in Hspares. congruence.
Qed.

(** C4, as the code has it. A row whose status is [SENT] or [FAILED] is
    changed by no call of the scheduler and by no run of the processor on
    a job that carries another id: after any sequence of such operations
    the row is the same, status and retry count included.  (A job that
    carries the row's own id and is released again does change it.) *)
Theorem terminal_row_spared (ops : list Op) (w : World) (key : string)
    (e : Event) :
  db w !! key = Some e ->
  status e = SENT \/ status e = FAILED ->
  Forall (spares key) ops ->
  db (run ops w) !! key = Some e.
Proof.
  intros Hrow _ Hops.
  induction ops as [|op ops IH] using rev_ind; [assumption|].
  apply Forall_app in Hops as [Hops Hop].
  apply Forall_inv in Hop.
  rewrite run_snoc, step_spares; auto.
  rewrite IH by assumption. eauto.
Qed.

Lemma terminal_row_spared_witness :
  db (run [Schedule otherSchedule sampleData;
           Attempt (attemptAt 16000 false) otherJob]
        (run exhausted initial)) !! "e1"
  = Some exhaustedRow.
Proof.
  apply terminal_row_spared.
  - vm_compute. reflexivity.
  - right. reflexivity.
  - repeat constructor; vm_compute; discriminate.
Defined.

(** C4, as stated, fails: a row that is [SENT] is marked [PROCESSING]
    again, and then [RETRIED] with a higher retry count, when the job that
    carries its id is delivered once more and the send fails. *)
Lemma terminal_row_mutated_on_redelivery :
  ~ (forall (ops : list Op) (op : Op) (key : string) (e : Event),
        db (run ops initial) !! key = Some e ->
        status e = SENT \/ status e = FAILED ->
        exists e' : Event,
          db (run (ops ++ [op]) initial) !! key = Some e'
          /\ status e' = status e
          /\ retryCount e' = retryCount e).
Proof.
  intros Hterminal.
  destruct (Hterminal
              [Schedule sampleSchedule sampleData;
               Attempt (attemptAt 7100 true) sampleJob]
              (Attempt (attemptAt 9000 false) sampleJob)
              "e1"
              {| id := "e1"; message := "hello";
                 recipientEmail := "user@example.com"; sendAt := 5000;
                 status := SENT; retryCount := 0;
                 createdAt := 7000; updatedAt := 7700 |})
    as (e' & Hrow & Hstatus & _).
  - vm_compute. reflexivity.
  - left. reflexivity.
  - vm_compute in Hrow. injection Hrow as <-. discriminate.
Qed.

(** * Reads and writes within one run of the processor *)

(** No read is among the effects listed. *)
Ltac no_read :=
  let Hin := fresh "Hin" in
  intros Hin;
  repeat (apply elem_of_cons in Hin as [Hin | Hin]; [discriminate|]);
  now apply elem_of_nil in Hin.

Lemma calls_app (l more : list Effect) :
  calls (l ++ more) = calls l ++ calls more.
Proof. apply flat_map_app. Qed.

(** With nobody else writing, the processor amid other writers is the
    processor. *)
Lemma eventWorkerAmid_alone (env : AttemptEnv) (job : Job.t) (w : World) :
  eventWorkerAmid (fun table => table) env job w = eventWorker env job w.
Proof.
  unfold eventWorkerAmid, eventWorker, try_catch, bind, meanwhile.
  destruct (EventService.updateEventStatus _ _ _ _ w) as [[u|error] w1];
    [|reflexivity].
  destruct (simulateSendMessage _ _ _ w1) as [[sent|error] [table l]];
    reflexivity.
Qed.

(** C7, as the code has it. For every released job whose row exists and
    whose first update goes through, the first thing the processor does
    to the store is the update that marks the row [PROCESSING]; no read
    precedes it.  When the send succeeds the run reads nothing at all.
    Only when the send has failed does the run read the row back, and
    what it then writes is decided by the retry count of the row read,
    also when other writers changed the row while the send was in flight:
    [RETRIED] with one more below the ceiling, [FAILED] with the same
    count otherwise.  The run is the same for every job that carries the
    same data, whatever its [attemptsMade]. *)
Theorem attempt_marks_then_reads
    (others : gmap string Event -> gmap string Event)
    (env : AttemptEnv) (job job' : Job.t) (w : World) (old : Event) :
  db w !! SendEventJobData.eventId (Job.data job) = Some old ->
  rejects (markProcessing env) = false ->
  Job.data job' = Job.data job ->
  let key := SendEventJobData.eventId (Job.data job) in
  let current := processingRow env old in
  let table := others (<[key := current]> (db w)) in
  let w' := snd (eventWorkerAmid others env job w) in
  status current = PROCESSING
  /\ retryCount current = retryCount old
  /\ (exists rest : list Effect,
        effects w' = effects w ++ DbUpdate current :: rest
        /\ (sendSuccess env = true ->
            forall (k : string) (found : option Event),
              DbRead k found ∉ rest)
        /\ (sendSuccess env = false ->
            calls rest
            = Send (SendEventJobData.recipientEmail (Job.data job))
                (SendEventJobData.message (Job.data job)) false
              :: (if readRejects env then []
                  else
                    DbRead key (table !! key)
                    :: match table !! key with
                       | Some row =>
                           if rejects (markResult env) then []
                           else
                             [DbUpdate
                                (decided row (stamp (markResult env)))]
                       | None => []
                       end)))
  /\ (sendSuccess env = false ->
      readRejects env = false ->
      rejects (markResult env) = false ->
      forall row : Event,
        table !! key = Some row ->
        db w' !! key = Some (decided row (stamp (markResult env))))
  /\ eventWorkerAmid others env job' w = eventWorkerAmid others env job w
  /\ eventWorkerAmid (fun table => table) env job w = eventWorker env job w.
Proof.
  intros Hrow Hup1 Hdata key current table w'. fold key in Hrow.
  do 2 (split; [reflexivity|]).
  assert (Hrun :
    eventWorkerAmid others env job w =
      let opened := {|
        db := table;
        effects :=
          effects w
          ++ [DbUpdate current; Broadcast (EventService.eventData current);
              Send (SendEventJobData.recipientEmail (Job.data job))
                (SendEventJobData.message (Job.data job))
                (sendSuccess env)] |} in
      if sendSuccess env then
        match
          EventService.updateEventStatus (markResult env) key SENT None
            opened
        with
        | (Ok _, w2) => (Ok tt, w2)
        | (Throw error, w2) => (Throw error, w2)
        end
      else if readRejects env then
        (Throw "Failed to retrieve event details.", opened)
      else
        match table !! key with
        | None =>
            (Throw ("Event " +:+ key +:+ " not found."),
             log (DbRead key None) opened)
        | Some row =>
            let warned :=
              if retryCount row <? MAX_RETRIES then
                [WarnRetrying key (retryCount row + 1)
                   (retryDelay (retryCount row))]
              else [] in
            if rejects (markResult env) then
              (Throw "Failed to update event status.",
               {| db := table;
                  effects :=
                    effects opened ++ DbRead key (Some row) :: warned |})
            else
              (Throw
                 (if retryCount row <? MAX_RETRIES then
                    "Simulated send failure, marking for potential retry by external system or monitoring."
                  else "Event " +:+ key +:+ " failed after maximum retries."),
               {| db :=
                    <[key := decided row (stamp (markResult env))]> table;
                  effects :=
                    effects opened
                    ++ DbRead key (Some row) :: warned
                    ++ [DbUpdate (decided row (stamp (markResult env)));
                        Broadcast
                          (EventService.eventData
                             (decided row (stamp (markResult env))))] |})
        end).
  { unfold eventWorkerAmid, try_catch, bind. fold key.
    rewrite updateEventStatus_eq, Hup1, Hrow. cbv zeta.
    fold (processingRow env old). fold current.
    unfold simulateSendMessage, meanwhile, bind, emit, ret, throw.
    cbn [db effects log]. fold table.
    rewrite <- !app_assoc. cbn [app].
    destruct (sendSuccess env).
    - destruct (EventService.updateEventStatus _ _ _ _ _) as [[u|error] w2];
        reflexivity.
    - rewrite getEventDetails_eq. cbn [db effects].
      destruct (readRejects env); [reflexivity|].
      destruct (table !! key) as [row|] eqn:Hread; [|reflexivity].
      cbv zeta.
      destruct (retryCount row <? MAX_RETRIES) eqn:Hbelow;
        rewrite updateEventStatus_eq; cbn [db effects log];
        rewrite Hread; destruct (rejects (markResult env));
        cbv zeta; unfold decided, EventModel.applyUpdate, log;
        cbn [db effects default UpdateEventData.status
             UpdateEventData.retryCount];
        rewrite ?Hbelow, <- ?app_assoc; cbn [app]; reflexivity. }
  split; [|split; [|split]].
  - subst w'. rewrite Hrun. cbv zeta.
    destruct (sendSuccess env) eqn:Hsend.
    + rewrite updateEventStatus_eq. cbn [db effects].
      destruct (rejects (markResult env)).
      * eexists. split; [cbn [snd effects app]; reflexivity|].
        split; [|discriminate].
        intros _ k found. no_read.
      * destruct (table !! key) as [row|].
        -- eexists. split.
           { cbv zeta. cbn [snd effects]. rewrite <- app_assoc.
             cbn [app]. reflexivity. }
           split; [|discriminate].
           intros _ k found. no_read.
        -- eexists. split; [cbn [snd effects app]; reflexivity|].
           split; [|discriminate].
           intros _ k found. no_read.
    + destruct (readRejects env).
      * eexists. split; [cbn [snd effects app]; reflexivity|].
        split; [discriminate|reflexivity].
      * destruct (table !! key) as [row|].
        -- cbv zeta.
           destruct (rejects (markResult env)); cbn [snd effects];
             (eexists; split;
              [rewrite <- app_assoc; cbn [app]; reflexivity|];
              split; [discriminate|]; intros _;
              destruct (retryCount row <? MAX_RETRIES); reflexivity).
        -- eexists. split.
           { unfold log. cbn [snd effects]. rewrite <- app_assoc.
             cbn [app]. reflexivity. }
           split; [discriminate|reflexivity].
  - intros Hsend Hread Hup2 row Hfound. subst w'.
    rewrite Hrun, Hsend, Hread, Hfound, Hup2. cbn [snd db].
    apply lookup_insert_eq.
  - unfold eventWorkerAmid. now rewrite Hdata.
  - apply eventWorkerAmid_alone.
Qed.

(** The sample job released once, the send fails, and while it was in
    flight another writer left the row with three retries used: the run
    marks the row, sends, reads the row back and writes [FAILED], though
    the row it had marked had no retry used and the job says
    [attemptsMade = 0]. *)
Lemma attempt_marks_then_reads_witness :
  calls
    (effects
       (snd (eventWorkerAmid usedUp (attemptAt 7100 false) sampleJob
               scheduled)))
  = [DbCreate (EventModel.newRow "e1" sampleData 7000);
     DbUpdate
       {| id := "e1"; message := "hello";
          recipientEmail := "user@example.com"; sendAt := 5000;
          status := PROCESSING; retryCount := 0;
          createdAt := 7000; updatedAt := 7100 |};
     Send "user@example.com" "hello" false;
     DbRead "e1"
       (Some
          {| id := "e1"; message := "hello";
             recipientEmail := "user@example.com"; sendAt := 5000;
             status := RETRIED; retryCount := 3;
             createdAt := 7000; updatedAt := 7400 |});
     DbUpdate
       {| id := "e1"; message := "hello";
          recipientEmail := "user@example.com"; sendAt := 5000;
          status := FAILED; retryCount := 3;
          createdAt := 7000; updatedAt := 7700 |}]
  /\ db (snd (eventWorkerAmid usedUp (attemptAt 7100 false) sampleJob
               scheduled)) !! "e1"
     = Some
         {| id := "e1"; message := "hello";
            recipientEmail := "user@example.com"; sendAt := 5000;
            status := FAILED; retryCount := 3;
            createdAt := 7000; updatedAt := 7700 |}.
Proof.
  destruct (attempt_marks_then_reads usedUp (attemptAt 7100 false)
              sampleJob sampleJob scheduled
              (EventModel.newRow "e1" sampleData 7000))
    as (_ & _ & (rest & Hlog & _ & Hcalls) & Hrow & _).
  - vm_compute. reflexivity.
  - reflexivity.
  - reflexivity.
  - split.
    + rewrite Hlog, calls_app. cbn [calls flat_map app].
      fold (calls rest). rewrite (Hcalls eq_refl).
      vm_compute. reflexivity.
    + refine (Hrow eq_refl eq_refl eq_refl
                {| id := "e1"; message := "hello";
                   recipientEmail := "user@example.com"; sendAt := 5000;
                   status := RETRIED; retryCount := 3;
                   createdAt := 7000; updatedAt := 7400 |} _).
      vm_compute. reflexivity.
Defined.

(** C7, as stated, fails: the run below marks the row [PROCESSING] as
    its first effect, with no read of the row before it (the send
    succeeds, and the run never reads the row at all). *)
Lemma attempt_marks_before_reading :
  ~ (forall (env : AttemptEnv) (job : Job.t) (w : World)
       (before after : list Effect) (e : Event),
        effects (step (Attempt env job) w)
        = effects w ++ before ++ DbUpdate e :: after ->
        status e = PROCESSING ->
        exists found : option Event,
          DbRead (SendEventJobData.eventId (Job.data job)) found ∈ before).
Proof.
  intros Hreads.
  destruct (Hreads (attemptAt 7100 true) sampleJob scheduled []
              [Broadcast
                 (EventService.eventData
                    (processingRow (attemptAt 7100 true)
                       (EventModel.newRow "e1" sampleData 7000)));
               Send "user@example.com" "hello" true;
               DbUpdate
                 (resultRow (attemptAt 7100 true)
                    (EventModel.newRow "e1" sampleData 7000));
               Broadcast
                 (EventService.eventData
                    (resultRow (attemptAt 7100 true)
                       (EventModel.newRow "e1" sampleData 7000)))]
              (processingRow (attemptAt 7100 true)
                 (EventModel.newRow "e1" sampleData 7000)))
    as [found Hin].
  - vm_compute. reflexivity.
  - reflexivity.
  - inversion Hin.
Qed.

(** * Writes and broadcasts *)

(** The message built from a row carries the row. *)
Lemma eventData_carries (e : Event) : carries (EventService.eventData e) e.
Proof. repeat split. Qed.

(** Appending a log that starts with a write (or has no broadcast before
    its first write) changes nothing for the writes already there. *)
Lemma untilNextWrite_app (l more : list Effect) :
  untilNextWrite more = [] ->
  untilNextWrite (l ++ more) = untilNextWrite l.
Proof.
  intros Hmore. induction l as [|x l IH]; [assumption|].
  destruct x; cbn; congruence.
Qed.

Lemma queuedBeforeNextWrite_app (l more : list Effect) :
  queuedBeforeNextWrite more = false ->
  queuedBeforeNextWrite (l ++ more) = queuedBeforeNextWrite l.
Proof.
  intros Hmore. induction l as [|x l IH]; [assumption|].
  destruct x; cbn; congruence.
Qed.

Lemma announcedIfQueued_app (l more : list Effect) :
  announcedIfQueued l = true ->
  untilNextWrite more = [] ->
  queuedBeforeNextWrite more = false ->
  announcedIfQueued more = true ->
  announcedIfQueued (l ++ more) = true.
Proof.
  intros Hl Hstart Hqueue Hmore. induction l as [|x l IH]; [assumption|].
  cbn [app announcedIfQueued] in *.
  apply andb_true_iff in Hl as [Hx Hl].
  unfold announcedOnce in *.
  rewrite untilNextWrite_app, queuedBeforeNextWrite_app, Hx, IH
    by assumption.
  reflexivity.
Qed.

(** One broadcast of the row itself announces it. *)
Lemma announcedOnce_eventData (e : Event) (rest : list Effect) :
  untilNextWrite rest = [EventService.eventData e] ->
  announcedOnce e rest = true.
Proof.
  intros Hrest. unfold announcedOnce. rewrite Hrest.
  apply bool_decide_eq_true_2, eventData_carries.
Qed.

(** What an operation adds to the log starts with a write (or is empty)
    and announces each of its writes, but for an insert whose enqueue was
    refused. *)
Lemma step_effects (op : Op) (w : World) :
  exists suffix : list Effect,
    effects (step op w) = effects w ++ suffix
    /\ untilNextWrite suffix = []
    /\ queuedBeforeNextWrite suffix = false
    /\ announcedIfQueued suffix = true.
Proof.
  destruct op as [env data | env job]; cbn [step].
  - rewrite scheduleEvent_eq.
    destruct (rejects (create env));
      [exists []; now rewrite app_nil_r|].
    destruct (db w !! uuid env);
      [exists []; now rewrite app_nil_r|].
    destruct (addRejects env); cbn [snd effects].
    + eexists. split; [reflexivity|]. now repeat split.
    + eexists. split; [reflexivity|]. do 2 (split; [reflexivity|]).
      cbn [announcedIfQueued queuedBeforeNextWrite].
      now rewrite announcedOnce_eventData.
  - destruct (eventWorker_cases env job w)
      as [[_ ->] | [(old & error & _ & ->) | (old & _ & ->)]];
      cbn [snd effects].
    + exists []. now rewrite app_nil_r.
    + eexists. split; [reflexivity|]. do 2 (split; [reflexivity|]).
      unfold retryEffects.
      destruct (readRejects env), (sendSuccess env),
        (retryCount (processingRow env old) <? MAX_RETRIES);
        cbn [app openingEffects announcedIfQueued];
        now rewrite announcedOnce_eventData.
    + eexists. split; [reflexivity|]. do 2 (split; [reflexivity|]).
      unfold retryEffects.
      destruct (sendSuccess env),
        (retryCount (processingRow env old) <? MAX_RETRIES);
        cbn [app openingEffects closingEffects announcedIfQueued];
        now rewrite !announcedOnce_eventData.
Qed.

(** Hence every sequence of operations leaves such a log. *)
Lemma run_announced (ops : list Op) :
  announcedIfQueued (effects (run ops initial)) = true.
Proof.
  induction ops as [|op ops IH] using rev_ind; [reflexivity|].
  rewrite run_snoc.
  destruct (step_effects op (run ops initial))
    as (suffix & -> & Hstart & Hqueue & Hsuffix).
  apply announcedIfQueued_app; auto.
Qed.

(** C8, as the code has it. Over every sequence of operations, every
    update of [updateEventStatus] is followed in the log, before the next
    write, by exactly one broadcast, whose eight fields are those of the
    row as written; so is the insert of [scheduleEvent] when the enqueue
    that follows it is accepted, and when the enqueue throws no broadcast
    follows the insert.  The row an accepted update or insert logs is the
    row then stored under the key. *)
Theorem writes_announced (ops : list Op) :
  announcedIfQueued (effects (run ops initial)) = true
  /\ (forall (c : DbCall) (key : string) (newStatus : EventStatus)
        (newRetryCount : option Z) (w w' : World) (e : Event),
        EventService.updateEventStatus c key newStatus newRetryCount w
        = (Ok e, w') ->
        db w' !! key = Some e
        /\ exists m : EventUpdate.t,
             effects w' = effects w ++ [DbUpdate e; Broadcast m]
             /\ carries m e)
  /\ (forall (env : ScheduleEnv) (data : CreateEventData.t) (w : World),
        rejects (create env) = false ->
        db w !! uuid env = None ->
        exists e : Event,
          db (step (Schedule env data) w) !! uuid env = Some e
          /\ if addRejects env
             then effects (step (Schedule env data) w)
                  = effects w ++ [DbCreate e]
             else exists (j : QueuedJob.t) (m : EventUpdate.t),
                    effects (step (Schedule env data) w)
                    = effects w ++ [DbCreate e; QueueAdd j; Broadcast m]
                    /\ carries m e).
Proof.
  split; [apply run_announced|]. split.
  - intros c key newStatus newRetryCount w w' e.
    rewrite updateEventStatus_eq.
    destruct (rejects c); [discriminate|].
    destruct (db w !! key); [|discriminate].
    cbv zeta. intros [= <- <-]. cbn [db effects].
    split; [apply lookup_insert_eq|].
    eexists. split; [reflexivity|apply eventData_carries].
  - intros env data w Hcreate Hfresh. cbn [step].
    rewrite scheduleEvent_eq, Hcreate, Hfresh. cbv zeta.
    exists (EventModel.newRow (uuid env) data (stamp (create env))).
    destruct (addRejects env); cbn [snd db effects].
    + split; [apply lookup_insert_eq|reflexivity].
    + split; [apply lookup_insert_eq|].
      do 2 eexists. split; [reflexivity|apply eventData_carries].
Qed.

(** A request the queue refuses, a second one it takes, and the job of
    the second run to a failed send and then to a successful one. *)
Lemma writes_announced_witness :
  announcedIfQueued
    (effects
       (run [Schedule queueDown sampleData;
             Schedule otherSchedule sampleData;
             Attempt (attemptAt 16000 false) otherJob;
             Attempt (attemptAt 17000 true) otherJob] initial))
  = true.
Proof.
  exact (proj1 (writes_announced _)).
Defined.

(** C8, as stated, fails: when the enqueue throws, the insert of
    [scheduleEvent] is in the log and no broadcast follows it. *)
Lemma insert_not_announced_when_enqueue_fails :
  ~ (forall ops : list Op, announced (effects (run ops initial)) = true).
Proof.
  intros Hall.
  specialize (Hall [Schedule queueDown sampleData]).
  vm_compute in Hall. discriminate.
Qed.

(** * The processor, case by case *)

(** The whole decision tree of one run of the processor. *)
Lemma eventWorker_eq (env : AttemptEnv) (job : Job.t) (w : World) :
  eventWorker env job w =
    let key := SendEventJobData.eventId (Job.data job) in
    if rejects (markProcessing env) then
      (Throw "Failed to update event status.", w)
    else
      match db w !! key with
      | None => (Throw "Failed to update event status.", w)
      | Some old =>
          let opened := {|
            db := <[key := processingRow env old]> (db w);
            effects := effects w ++ openingEffects env job old |} in
          if sendSuccess env then
            if rejects (markResult env) then
              (Throw "Failed to update event status.", opened)
            else
              (Ok tt,
               {| db := <[key := resultRow env old]> (db w);
                  effects :=
                    effects w ++ openingEffects env job old
                    ++ closingEffects env old |})
          else if readRejects env then
            (Throw "Failed to retrieve event details.", opened)
          else if rejects (markResult env) then
            (Throw "Failed to update event status.",
             {| db := db opened;
                effects := effects opened ++ retryEffects env job old |})
          else
            (verdict env job old,
             {| db := <[key := resultRow env old]> (db w);
                effects :=
                  effects w ++ openingEffects env job old
                  ++ retryEffects env job old ++ closingEffects env old |})
      end.
Proof.
  cbv zeta. set (key := SendEventJobData.eventId (Job.data job)).
  destruct (rejects (markProcessing env)) eqn:Hup1.
  { unfold eventWorker, try_catch, bind.
    now rewrite updateEventStatus_eq, Hup1. }
  destruct (db w !! key) as [old|] eqn:Hrow.
  2:{ unfold eventWorker, try_catch, bind. fold key.
      now rewrite updateEventStatus_eq, Hup1, Hrow. }
  destruct (sendSuccess env) eqn:Hsend.
  - unfold eventWorker, try_catch, bind. fold key.
    rewrite updateEventStatus_eq, Hup1, Hrow. cbv zeta.
    fold (processingRow env old).
    unfold simulateSendMessage, bind, emit, ret, throw, closingEffects,
      openingEffects, resultRow.
    rewrite Hsend, updateEventStatus_eq. cbn [db effects log].
    rewrite lookup_insert_eq.
    destruct (rejects (markResult env)); [same_log|].
    cbv zeta. rewrite insert_insert_eq. same_log.
  - destruct (readRejects env) eqn:Hread.
    + unfold eventWorker, try_catch, bind. fold key.
      rewrite updateEventStatus_eq, Hup1, Hrow. cbv zeta.
      fold (processingRow env old).
      unfold simulateSendMessage, bind, emit, ret, throw, openingEffects.
      rewrite Hsend, getEventDetails_eq, Hread. same_log.
    + destruct (rejects (markResult env)) eqn:Hup2.
      * unfold eventWorker, try_catch, bind. fold key.
        rewrite updateEventStatus_eq, Hup1, Hrow. cbv zeta.
        fold (processingRow env old).
        unfold simulateSendMessage, bind, emit, ret, throw, retryEffects,
          openingEffects.
        fold key.
        rewrite Hsend, getEventDetails_eq, Hread. cbn [db effects log].
        rewrite lookup_insert_eq.
        destruct (retryCount (processingRow env old) <? MAX_RETRIES);
          rewrite updateEventStatus_eq, Hup2; same_log.
      * rewrite (eventWorker_undisturbed env job w old) by assumption.
        reflexivity.
Qed.

Lemma sends_app (l1 l2 : list Effect) :
  sends (l1 ++ l2) = sends l1 ++ sends l2.
Proof. apply flat_map_app. Qed.

(** The retry path and the last update send nothing. *)
Lemma sends_retryEffects (env : AttemptEnv) (job : Job.t) (old : Event) :
  sends (retryEffects env job old) = [].
Proof.
  unfold retryEffects.
  now destruct (sendSuccess env),
    (retryCount (processingRow env old) <? MAX_RETRIES).
Qed.

(** X1. A job released for a row that is not in the table makes the
    processor throw "Failed to update event status." at its first step:
    nothing is sent, written or broadcast, whatever the send would have
    given. *)
Theorem eventWorker_missing_row (env : AttemptEnv) (job : Job.t)
    (w : World) :
  db w !! SendEventJobData.eventId (Job.data job) = None ->
  eventWorker env job w = (Throw "Failed to update event status.", w).
Proof.
  intros Hnone. rewrite eventWorker_eq. cbv zeta. rewrite Hnone.
  now destruct (rejects (markProcessing env)).
Qed.

Lemma eventWorker_missing_row_witness :
  eventWorker (attemptAt 7100 true) sampleJob initial
  = (Throw "Failed to update event status.", initial).
Proof.
  apply eventWorker_missing_row. vm_compute. reflexivity.
Defined.

(** X2. The processor returns (the job completes) exactly when the row
    exists, the send succeeded and both updates went through; the row is
    then stored with status [SENT] and the retry count it had.  In every
    other case the processor throws, so the job fails. *)
Theorem eventWorker_completes_iff_sent (env : AttemptEnv) (job : Job.t)
    (w : World) :
  (fst (eventWorker env job w) = Ok tt
   <-> is_Some (db w !! SendEventJobData.eventId (Job.data job))
       /\ sendSuccess env = true
       /\ rejects (markProcessing env) = false
       /\ rejects (markResult env) = false)
  /\ (fst (eventWorker env job w) = Ok tt ->
      exists old row : Event,
        db w !! SendEventJobData.eventId (Job.data job) = Some old
        /\ db (snd (eventWorker env job w))
             !! SendEventJobData.eventId (Job.data job) = Some row
        /\ status row = SENT
        /\ retryCount row = retryCount old)
  /\ (fst (eventWorker env job w) <> Ok tt ->
      exists error : string, fst (eventWorker env job w) = Throw error).
Proof.
  set (key := SendEventJobData.eventId (Job.data job)).
  rewrite eventWorker_eq. cbv zeta. fold key.
  destruct (rejects (markProcessing env)) eqn:Hup1.
  { cbn. split; [|split]; [split| |]; try discriminate; eauto.
    intros (_ & _ & ? & _). discriminate. }
  destruct (db w !! key) as [old|] eqn:Hrow.
  2:{ cbn. split; [|split]; [split| |]; try discriminate; eauto.
      intros ([? ?] & _). discriminate. }
  destruct (sendSuccess env) eqn:Hsend.
  - destruct (rejects (markResult env)) eqn:Hup2; cbn [fst snd db].
    + split; [|split]; [split| |]; try discriminate; eauto.
      intros (_ & _ & _ & ?). discriminate.
    + split; [|split]; [split| |]; eauto; try congruence.
      intros _. exists old, (resultRow env old).
      split; [reflexivity|]. split; [apply lookup_insert_eq|].
      unfold resultRow. now rewrite Hsend.
  - unfold verdict. rewrite Hsend.
    destruct (readRejects env), (rejects (markResult env)),
      (retryCount (processingRow env old) <? MAX_RETRIES);
      cbn [fst];
      (split; [|split]; [split| |]; try discriminate; eauto;
       intros (_ & ? & _); discriminate).
Qed.

(** X3. A run of the processor attempts the send exactly once when the
    row exists and the update to [PROCESSING] went through, and not at all
    otherwise; what it sends are the recipient and the message of the
    job's data. *)
Theorem eventWorker_sends_once (env : AttemptEnv) (job : Job.t)
    (w : World) :
  sends (effects (snd (eventWorker env job w)))
  = sends (effects w)
    ++ match db w !! SendEventJobData.eventId (Job.data job) with
       | Some _ =>
           if rejects (markProcessing env) then []
           else [(SendEventJobData.recipientEmail (Job.data job),
                  SendEventJobData.message (Job.data job),
                  sendSuccess env)]
       | None => []
       end.
Proof.
  rewrite eventWorker_eq. cbv zeta.
  destruct (rejects (markProcessing env));
    [destruct (db w !! _); cbn; now rewrite app_nil_r|].
  destruct (db w !! _) as [old|]; [|cbn; now rewrite app_nil_r].
  destruct (sendSuccess env) eqn:Hsend;
    destruct (rejects (markResult env)); try destruct (readRejects env);
    cbn [snd effects db]; rewrite ?sends_app, ?sends_retryEffects;
    unfold openingEffects; rewrite Hsend; cbn; now rewrite ?app_nil_r.
Qed.

(** X4. When the send succeeded and the last update is rejected, the job
    fails with "Failed to update event status." and the row is left
    [PROCESSING], with the successful send in the log: the message went
    out and the table does not say so. *)
Theorem sent_but_left_processing (env : AttemptEnv) (job : Job.t)
    (w : World) (old : Event) :
  db w !! SendEventJobData.eventId (Job.data job) = Some old ->
  rejects (markProcessing env) = false ->
  sendSuccess env = true ->
  rejects (markResult env) = true ->
  let w' := snd (eventWorker env job w) in
  fst (eventWorker env job w) = Throw "Failed to update event status."
  /\ (exists row : Event,
        db w' !! SendEventJobData.eventId (Job.data job) = Some row
        /\ status row = PROCESSING
        /\ retryCount row = retryCount old)
  /\ sends (effects w')
     = sends (effects w)
       ++ [(SendEventJobData.recipientEmail (Job.data job),
            SendEventJobData.message (Job.data job), true)].
Proof.
  intros Hrow Hup1 Hsend Hup2 w'. subst w'.
  rewrite eventWorker_eq. cbv zeta. rewrite Hrow, Hup1, Hsend, Hup2.
  cbn [fst snd db effects]. split; [reflexivity|]. split.
  - exists (processingRow env old). split; [apply lookup_insert_eq|].
    now split.
  - rewrite sends_app. unfold openingEffects. now rewrite Hsend.
Qed.

Lemma sent_but_left_processing_witness :
  exists row : Event,
    db (snd (eventWorker
               {| markProcessing := calm 7100; sendSuccess := true;
                  readRejects := false; markResult := down 7700 |}
               sampleJob scheduled)) !! "e1" = Some row
    /\ status row = PROCESSING.
Proof.
  destruct (sent_but_left_processing
              {| markProcessing := calm 7100; sendSuccess := true;
                 readRejects := false; markResult := down 7700 |}
              sampleJob scheduled (EventModel.newRow "e1" sampleData 7000))
    as (_ & (row & Hrow & Hstatus & _) & _);
    [vm_compute; reflexivity | reflexivity | reflexivity | reflexivity |].
  exists row. split; assumption.
Defined.

(** * Rows over sequences of operations *)

(** An operation keeps every row under its key, with the fields no
    update touches as they were. *)
Lemma step_samePayload (op : Op) (w : World) (key : string) (e : Event) :
  db w !! key = Some e ->
  exists e' : Event, db (step op w) !! key = Some e' /\ samePayload e e'.
Proof.
  intros Hrow.
  assert (Hsame : samePayload e e) by (now repeat split).
  destruct op as [env data | env job]; cbn [step].
  - rewrite scheduleEvent_eq.
    destruct (rejects (create env)); [eauto|].
    destruct (db w !! uuid env) eqn:Hfresh; [eauto|].
    exists e. split; [|assumption].
    destruct (addRejects env); cbn [snd db];
      rewrite lookup_insert_ne; congruence.
  - rewrite eventWorker_eq. cbv zeta.
    set (k := SendEventJobData.eventId (Job.data job)).
    destruct (rejects (markProcessing env)); [eauto|].
    destruct (db w !! k) as [old|] eqn:Hold; [|eauto].
    destruct (decide (k = key)) as [->|Hne].
    + rewrite Hrow in Hold. injection Hold as <-.
      destruct (sendSuccess env), (rejects (markResult env)),
        (readRejects env); cbn [snd db]; rewrite lookup_insert_eq;
        eexists; (split; [reflexivity|]); now repeat split.
    + destruct (sendSuccess env), (rejects (markResult env)),
        (readRejects env); cbn [snd db]; rewrite lookup_insert_ne by done;
        eauto.
Qed.

Lemma samePayload_trans (a b c : Event) :
  samePayload a b -> samePayload b c -> samePayload a c.
Proof. unfold samePayload. intuition congruence. Qed.

Lemma run_samePayload (more : list Op) (w : World) (key : string)
    (e : Event) :
  db w !! key = Some e ->
  exists e' : Event, db (run more w) !! key = Some e' /\ samePayload e e'.
Proof.
  intros Hrow. induction more as [|op more IH] using rev_ind.
  - exists e. split; [assumption|]. now repeat split.
  - destruct IH as (e1 & Hrow1 & Hsame1). rewrite run_snoc.
    destruct (step_samePayload op _ _ _ Hrow1) as (e2 & Hrow2 & Hsame2).
    eauto using samePayload_trans.
Qed.

Lemma step_keyed (op : Op) (w : World) : keyed w -> keyed (step op w).
Proof.
  intros Hkeyed key e.
  destruct (db w !! key) as [before|] eqn:Hbefore.
  - destruct (step_samePayload op w key before Hbefore)
      as (e' & -> & Hid & _).
    intros [= <-]. rewrite Hid. eauto.
  - destruct op as [env data | env job]; cbn [step].
    + rewrite scheduleEvent_eq.
      destruct (rejects (create env)); [cbn [snd]; congruence|].
      destruct (db w !! uuid env); [cbn [snd]; congruence|].
      destruct (addRejects env); cbn [snd db]; rewrite lookup_insert;
        case_decide; try congruence; now intros [= <-].
    + rewrite eventWorker_eq. cbv zeta.
      set (k := SendEventJobData.eventId (Job.data job)).
      destruct (rejects (markProcessing env)); [cbn [snd]; congruence|].
      destruct (db w !! k) as [old|] eqn:Hold; [|cbn [snd]; congruence].
      assert (k <> key) by congruence.
      destruct (sendSuccess env), (rejects (markResult env)),
        (readRejects env); cbn [snd db]; rewrite lookup_insert_ne by done;
        congruence.
Qed.

Lemma run_keyed (ops : list Op) : keyed (run ops initial).
Proof.
  induction ops as [|op ops IH] using rev_ind.
  - intros key e. cbn. now rewrite lookup_empty.
  - rewrite run_snoc. now apply step_keyed.
Qed.

(** X5. Over every sequence of operations from the empty table, a row is
    stored under its own id, and whatever operations follow, the row
    under that key keeps its id, message, recipient, [sendAt] and
    [createdAt]: the scheduler never overwrites a row and the processor
    updates nothing but status, retry count and [updatedAt]. *)
Theorem payload_immutable (ops more : list Op) (key : string) (e : Event) :
  db (run ops initial) !! key = Some e ->
  id e = key
  /\ exists e' : Event,
       db (run (ops ++ more) initial) !! key = Some e'
       /\ id e' = id e
       /\ message e' = message e
       /\ recipientEmail e' = recipientEmail e
       /\ sendAt e' = sendAt e
       /\ createdAt e' = createdAt e.
Proof.
  intros Hrow. split; [now apply (run_keyed ops)|].
  rewrite run_app. now apply run_samePayload.
Qed.

Lemma payload_immutable_witness :
  id exhaustedRow = "e1"
  /\ exists e' : Event,
       db (run (exhausted ++ [Attempt (attemptAt 20000 true) sampleJob])
             initial) !! "e1" = Some e'
       /\ id e' = id exhaustedRow
       /\ message e' = message exhaustedRow
       /\ recipientEmail e' = recipientEmail exhaustedRow
       /\ sendAt e' = sendAt exhaustedRow
       /\ createdAt e' = createdAt exhaustedRow.
Proof.
  apply (payload_immutable exhausted
           [Attempt (attemptAt 20000 true) sampleJob] "e1" exhaustedRow).
  vm_compute. reflexivity.
Defined.

(** One failed, undisturbed run: the row read back decides. *)
Lemma failing_step (env : AttemptEnv) (job : Job.t) (w : World)
    (old : Event) :
  db w !! SendEventJobData.eventId (Job.data job) = Some old ->
  failing env ->
  db (step (Attempt env job) w) !! SendEventJobData.eventId (Job.data job)
  = Some (resultRow env old)
  /\ retryCount (resultRow env old)
     = (if retryCount old <? MAX_RETRIES
        then retryCount old + 1 else retryCount old)
  /\ status (resultRow env old)
     = (if retryCount old <? MAX_RETRIES then RETRIED else FAILED).
Proof.
  intros Hrow (Hsend & Hup1 & Hread & Hup2). cbn [step].
  rewrite (eventWorker_undisturbed env job w old) by assumption.
  cbn [snd db]. split; [apply lookup_insert_eq|].
  unfold resultRow. rewrite Hsend.
  change (retryCount (processingRow env old)) with (retryCount old).
  now destruct (retryCount old <? MAX_RETRIES).
Qed.

(** X6. After [n >= 1] failed sends in a row for one row whose retry
    count [r] is at most 3 (each run undisturbed), the retry count is
    [min(r + n, 3)] and the status is [RETRIED] as long as [r + n <= 3]
    and [FAILED] from then on: a fresh row turns [FAILED] at its fourth
    failed send, not at its third. *)
Theorem failed_attempts_law (envs : list AttemptEnv) (job : Job.t)
    (w : World) (old : Event) :
  db w !! SendEventJobData.eventId (Job.data job) = Some old ->
  retryCount old <= MAX_RETRIES ->
  envs <> [] ->
  Forall failing envs ->
  exists row : Event,
    db (run (map (fun env => Attempt env job) envs) w)
      !! SendEventJobData.eventId (Job.data job) = Some row
    /\ retryCount row
       = Z.min (retryCount old + Z.of_nat (length envs)) MAX_RETRIES
    /\ status row
       = (if retryCount old + Z.of_nat (length envs) <=? MAX_RETRIES
          then RETRIED else FAILED).
Proof.
  intros Hrow Hbound Hsome Hall.
  set (key := SendEventJobData.eventId (Job.data job)) in *.
  assert (Hgen :
    exists row : Event,
      db (run (map (fun env => Attempt env job) envs) w) !! key = Some row
      /\ retryCount row
         = Z.min (retryCount old + Z.of_nat (length envs)) MAX_RETRIES
      /\ (envs <> [] ->
          status row
          = (if retryCount old + Z.of_nat (length envs) <=? MAX_RETRIES
             then RETRIED else FAILED))).
  { clear Hsome. induction envs as [|env envs IH] using rev_ind.
    - exists old. split; [assumption|]. split; [|congruence].
      cbn [length Z.of_nat]. lia.
    - apply Forall_app in Hall as [Hall Henv]. apply Forall_inv in Henv.
      destruct (IH Hall) as (row1 & Hrow1 & Hcount1 & _).
      rewrite map_app. cbn [map]. rewrite run_snoc.
      destruct (failing_step env job _ row1 Hrow1 Henv)
        as (Hrow2 & Hcount2 & Hstatus2).
      exists (resultRow env row1). split; [assumption|].
      rewrite length_app, Nat2Z.inj_add. cbn [length Z.of_nat Pos.of_succ_nat].
      rewrite Hcount2, Hstatus2, Hcount1. unfold MAX_RETRIES in *.
      change (Z.of_nat 1) with 1.
      replace (retryCount old + (Z.of_nat (length envs) + 1))
        with (retryCount old + Z.of_nat (length envs) + 1) by lia.
      generalize (retryCount old + Z.of_nat (length envs)). intros m.
      split; [|intros _];
        destruct (Z.ltb_spec (Z.min m 3) 3), (Z.leb_spec (m + 1) 3);
        try reflexivity; lia. }
  destruct Hgen as (row & ? & ? & Hstatus). eauto.
Qed.

(** Four failed sends for the sample row. *)
Lemma failed_attempts_law_witness :
  exists row : Event,
    db (run (map (fun env => Attempt env sampleJob)
               [attemptAt 7100 false; attemptAt 8100 false;
                attemptAt 10100 false; attemptAt 14100 false])
          scheduled) !! "e1" = Some row
    /\ retryCount row = 3
    /\ status row = FAILED.
Proof.
  destruct (failed_attempts_law
              [attemptAt 7100 false; attemptAt 8100 false;
               attemptAt 10100 false; attemptAt 14100 false]
              sampleJob scheduled (EventModel.newRow "e1" sampleData 7000))
    as (row & Hrow & Hcount & Hstatus).
  - vm_compute. reflexivity.
  - vm_compute. discriminate.
  - discriminate.
  - repeat constructor.
  - exists row. split; [exact Hrow|]. split; [exact Hcount|exact Hstatus].
Defined.


(** X7. A request that is stored and enqueued, followed by an undisturbed
    run of the processor on the job released for it whose send succeeds:
    the processor returns, the row ends [SENT] with retry count 0, the bus
    was handed exactly three updates for the row ([SCHEDULED],
    [PROCESSING], [SENT], each with retry count 0), and the one send made
    carries the recipient and the message of the request. *)
Theorem schedule_then_send (senv : ScheduleEnv) (aenv : AttemptEnv)
    (data : CreateEventData.t) (made : Z) (w : World) :
  rejects (create senv) = false ->
  db w !! uuid senv = None ->
  addRejects senv = false ->
  undisturbed aenv ->
  sendSuccess aenv = true ->
  exists (job : QueuedJob.t) (w1 w2 : World) (row : Event),
    snd (EventService.scheduleEvent senv data w) = w1
    /\ enqueued (effects w1) = enqueued (effects w) ++ [job]
    /\ eventWorker aenv (release job made) w1 = (Ok tt, w2)
    /\ db w2 !! uuid senv = Some row
    /\ status row = SENT
    /\ retryCount row = 0
    /\ map headline (published (effects w2))
       = map headline (published (effects w))
         ++ [(uuid senv, SCHEDULED, 0); (uuid senv, PROCESSING, 0);
             (uuid senv, SENT, 0)]
    /\ sends (effects w2)
       = sends (effects w)
         ++ [(CreateEventData.recipientEmail data,
              CreateEventData.message data, true)].
Proof.
  intros Hcreate Hfresh Hadd (Hup1 & Hread & Hup2) Hsend.
  rewrite scheduleEvent_eq, Hcreate, Hfresh, Hadd. cbv zeta. cbn [snd].
  eexists. eexists. eexists. eexists.
  split; [reflexivity|].
  split; [cbn [effects]; rewrite enqueued_app; reflexivity|].
  split.
  { rewrite eventWorker_eq. cbv zeta. cbn [release Job.data QueuedJob.data
      SendEventJobData.eventId db].
    rewrite Hup1, lookup_insert_eq, Hsend, Hup2. reflexivity. }
  cbn [db effects]. rewrite insert_insert_eq.
  split; [apply lookup_insert_eq|].
  unfold resultRow. rewrite Hsend.
  split; [reflexivity|]. split; [reflexivity|].
  rewrite !published_app, !sends_app, !map_app.
  unfold closingEffects, openingEffects, resultRow. rewrite Hsend.
  cbn. rewrite app_nil_r, <- app_assoc. now split.
Qed.

Lemma schedule_then_send_witness :
  exists (w2 : World) (row : Event),
    db w2 !! "e1" = Some row
    /\ status row = SENT
    /\ map headline (published (effects w2))
       = [("e1", SCHEDULED, 0); ("e1", PROCESSING, 0); ("e1", SENT, 0)].
Proof.
  destruct (schedule_then_send sampleSchedule (attemptAt 7100 true)
              sampleData 0 initial)
    as (job & w1 & w2 & row & _ & _ & _ & Hrow & Hstatus & _ & Hbus & _);
    [reflexivity | reflexivity | reflexivity | now repeat split
    | reflexivity |].
  exists w2, row. split; [exact Hrow|]. split; [exact Hstatus|exact Hbus].
Defined.

(** An operation keeps status and retry count fitting, given the bounds. *)
Lemma step_status_fits (op : Op) (w : World) :
  table_ok w ->
  (forall (key : string) (e : Event),
      db w !! key = Some e -> status_fits e) ->
  forall (key : string) (e : Event),
    db (step op w) !! key = Some e -> status_fits e.
Proof.
  intros Hok Hfits key e.
  destruct op as [env data | env job]; cbn [step].
  - rewrite scheduleEvent_eq.
    destruct (rejects (create env)); [apply Hfits|].
    destruct (db w !! uuid env); [apply Hfits|].
    destruct (addRejects env); cbn [snd db]; rewrite lookup_insert;
      case_decide; try apply Hfits; intros [= <-]; now split.
  - rewrite eventWorker_eq. cbv zeta.
    set (k := SendEventJobData.eventId (Job.data job)).
    destruct (rejects (markProcessing env)); [apply Hfits|].
    destruct (db w !! k) as [old|] eqn:Hold; [|apply Hfits].
    destruct (Hok k old Hold) as [[Hlow _] _].
    assert (Hresult : status_fits (resultRow env old)).
    { unfold status_fits, resultRow.
      change (retryCount (processingRow env old)) with (retryCount old).
      destruct (sendSuccess env); [now split|].
      destruct (retryCount old <? MAX_RETRIES); cbn; split;
        try discriminate; intros _; lia. }
    assert (Hprocessing : status_fits (processingRow env old))
      by now split.
    destruct (sendSuccess env), (rejects (markResult env)),
      (readRejects env); cbn [snd db]; rewrite lookup_insert;
      case_decide; try apply Hfits; now intros [= <-].
Qed.

(** X8. Over every sequence of operations from the empty table, a row
    whose status is [SCHEDULED] has retry count 0 (the processor never
    writes [SCHEDULED] back), and a row whose status is [RETRIED] has a
    retry count of at least 1. *)
Theorem status_fits_retryCount (ops : list Op) (key : string) (e : Event) :
  db (run ops initial) !! key = Some e ->
  (status e = SCHEDULED -> retryCount e = 0)
  /\ (status e = RETRIED -> 1 <= retryCount e).
Proof.
  revert key e. induction ops as [|op ops IH] using rev_ind.
  - intros key e. cbn. now rewrite lookup_empty.
  - rewrite run_snoc.
    apply step_status_fits; [|exact IH].
    apply run_table_ok, initial_table_ok.
Qed.

Lemma status_fits_retryCount_witness :
  exists e : Event,
    db (run [Schedule sampleSchedule sampleData;
             Attempt (attemptAt 7100 false) sampleJob] initial) !! "e1"
    = Some e
    /\ status e = RETRIED
    /\ 1 <= retryCount e.
Proof.
  eexists. split; [vm_compute; reflexivity|]. split; [reflexivity|].
  eapply (status_fits_retryCount
            [Schedule sampleSchedule sampleData;
             Attempt (attemptAt 7100 false) sampleJob] "e1");
    [vm_compute; reflexivity | reflexivity].
Defined.

(** * The WebSocket fan-out *)

(** Walking a list of distinct clients changes exactly the sockets of
    the list, each as a broadcast that reached it. *)
Lemma foldl_sendIfOpen (message : Text Frame) (l : list nat)
    (s : gmap nat Socket) (ws : nat) :
  NoDup l ->
  foldl (sendIfOpen message) s l !! ws
  = if decide (ws ∈ l) then reached message <$> s !! ws else s !! ws.
Proof.
  intros Hdistinct. revert s.
  induction Hdistinct as [|client l Hfresh Hdistinct IH]; intros s.
  - cbn. case_decide as Hin; [inversion Hin|reflexivity].
  - cbn [foldl]. rewrite IH.
    assert (Hclient :
      sendIfOpen message s client !! ws
      = if decide (ws = client) then reached message <$> s !! ws
        else s !! ws).
    { unfold sendIfOpen, reached.
      destruct (decide (ws = client)) as [->|Hne].
      - destruct (s !! client) as [k|] eqn:Hk; [|now rewrite Hk].
        cbn. case_bool_decide; [now rewrite lookup_insert_eq|exact Hk].
      - destruct (s !! client) as [k|]; [|reflexivity].
        case_bool_decide; [now rewrite lookup_insert_ne|reflexivity]. }
    rewrite Hclient.
    destruct (decide (ws = client)) as [->|Hne].
    + rewrite decide_False by assumption.
      rewrite decide_True by left. reflexivity.
    + destruct (decide (ws ∈ l)) as [Hin|Hout].
      * rewrite decide_True by now right. reflexivity.
      * rewrite decide_False; [reflexivity|].
        intros Hin. apply elem_of_cons in Hin as [?|?]; contradiction.
Qed.

Lemma forEachClient_lookup (message : Text Frame) (clients : gset nat)
    (s : gmap nat Socket) (ws : nat) :
  forEachClient message clients s !! ws
  = if decide (ws ∈ clients) then reached message <$> s !! ws
    else s !! ws.
Proof.
  unfold forEachClient. rewrite foldl_sendIfOpen by apply NoDup_elements.
  destruct (decide (ws ∈ clients)) as [Hin|Hout].
  - rewrite decide_True by now apply elem_of_elements. reflexivity.
  - rewrite decide_False; [reflexivity|].
    now rewrite elem_of_elements.
Qed.

(** X9. [broadcastEventUpdate] of [utils/websocket.ts] sends the frame
    [{ type: 'eventUpdate', data }] exactly once on every registered
    socket that is open, and nothing on any other socket (not registered,
    or not open); it changes neither the set of clients nor the state of
    a socket. *)
Theorem broadcast_reaches_open_clients (eventData : EventUpdate.t)
    (h : WebSocketV1.Hub) (ws : nat) :
  WebSocketV1.sockets (WebSocketV1.broadcastEventUpdate eventData h) !! ws
  = (if decide (ws ∈ WebSocketV1.connectedClients h)
     then reached (JSON_stringify (Tagged "eventUpdate" "data" eventData))
            <$> WebSocketV1.sockets h !! ws
     else WebSocketV1.sockets h !! ws)
  /\ WebSocketV1.connectedClients
       (WebSocketV1.broadcastEventUpdate eventData h)
     = WebSocketV1.connectedClients h
  /\ (readyState
        <$> WebSocketV1.sockets
              (WebSocketV1.broadcastEventUpdate eventData h) !! ws)
     = (readyState <$> WebSocketV1.sockets h !! ws).
Proof.
  unfold WebSocketV1.broadcastEventUpdate. cbn.
  rewrite forEachClient_lookup.
  split; [reflexivity|]. split; [reflexivity|].
  case_decide; [|reflexivity].
  destruct (WebSocketV1.sockets h !! ws) as [k|]; [|reflexivity].
  cbn. unfold reached. now case_bool_decide.
Qed.

(** X10. The Redis listener of the second version relays a message of
    the channel [websocket:broadcast] once to every open socket of the
    shared set, as the frame [{ type: 'eventUpdate', data }] carrying the
    update published; a message of another channel, or one arriving in a
    process that never called [setWebSocketClients] (the worker), changes
    nothing and logs no error. *)
Theorem onMessage_relays (channel : string) (eventData : EventUpdate.t)
    (p : WebSocketV2.Process) (ws : nat) :
  WebSocketV2.redisSubscriber p = true ->
  let p' :=
    WebSocketV2.onMessage channel (JSON_stringify eventData) p in
  (channel = "websocket:broadcast" ->
   WebSocketV2.connectedClients p = true ->
   WebSocketV2.sockets p' !! ws
   = (if decide (ws ∈ WebSocketV2.clients p)
      then reached
             (JSON_stringify (Tagged "eventUpdate" "data" eventData))
             <$> WebSocketV2.sockets p !! ws
      else WebSocketV2.sockets p !! ws))
  /\ (channel <> "websocket:broadcast"
      \/ WebSocketV2.connectedClients p = false ->
      p' = p).
Proof.
  intros Hsubscriber p'. subst p'. unfold WebSocketV2.onMessage.
  rewrite Hsubscriber. split.
  - intros -> Hclients. rewrite Hclients.
    rewrite bool_decide_eq_true_2 by reflexivity. cbn [andb].
    unfold WebSocketV2.broadcastToClients. rewrite Hclients. cbn.
    apply forEachClient_lookup.
  - intros [Hchannel | Hnull].
    + now rewrite bool_decide_eq_false_2.
    + rewrite Hnull. now rewrite andb_false_r.
Qed.

Lemma onMessage_relays_witness :
  WebSocketV2.onMessage "other" (JSON_stringify sampleUpdate)
    ServerV2.start
  = ServerV2.start.
Proof.
  apply (onMessage_relays "other" sampleUpdate ServerV2.start 0);
    [reflexivity|].
  left. discriminate.
Defined.

(** * A server process of the second version, event by event *)

Lemma reached_readyState (message : Text Frame) (k : Socket) :
  readyState (reached message k) = readyState k.
Proof. unfold reached. now case_bool_decide. Qed.

Lemma reached_outbox (message : Text Frame) (k : Socket) :
  outbox (reached message k)
  = outbox k ++ (if bool_decide (readyState k = OPEN) then [message] else []).
Proof.
  unfold reached. case_bool_decide; cbn; [reflexivity|].
  now rewrite app_nil_r.
Qed.

Lemma serving_start : serving ServerV2.start.
Proof.
  repeat split; cbn.
  - intros Hin. now apply not_elem_of_empty in Hin.
  - intros (k & Hk & _). now rewrite lookup_empty in Hk.
  - intros ws k Hk. now rewrite lookup_empty in Hk.
Qed.

Lemma serving_handle (ev : WsEvent) (p : WebSocketV2.Process) :
  serving p -> serving (ServerV2.handle ev p).
Proof.
  intros Hserving.
  pose proof Hserving as (Hset & Hpub & Hsub & Herr & Hclients & Hout).
  destruct ev as [ws | ws | ws | e | e | channel message];
    cbn [ServerV2.handle]; try exact Hserving.
  - destruct (WebSocketV2.sockets p !! ws) eqn:Hws; [exact Hserving|].
    repeat split; cbn; try assumption.
    + intros Hin. apply elem_of_union in Hin as [Hin | Hin].
      * apply Hclients in Hin as (k & Hk & Hstate).
        exists k. split; [|assumption].
        rewrite lookup_insert_ne; [assumption|congruence].
      * apply elem_of_singleton in Hin as ->.
        eexists. split; [apply lookup_insert_eq|discriminate].
    + intros (k & Hk & Hstate). apply elem_of_union.
      destruct (decide (ws = ws0)) as [->|Hne].
      * right. now apply elem_of_singleton.
      * left. apply Hclients. exists k.
        now rewrite lookup_insert_ne in Hk.
    + intros ws' k. rewrite lookup_insert. case_decide.
      * intros [= <-]. exists []. now split.
      * apply Hout.
  - destruct (WebSocketV2.sockets p !! ws) as [k|] eqn:Hws;
      [|exact Hserving].
    case_bool_decide as Hopen; [|exact Hserving].
    repeat split; cbn; try assumption.
    + intros Hin. apply Hclients in Hin as (k' & Hk' & Hstate).
      unfold setReadyState.
      destruct (decide (ws = ws0)) as [->|Hne].
      * rewrite lookup_alter_eq, Hws. cbn. eexists.
        split; [reflexivity|discriminate].
      * rewrite lookup_alter_ne by assumption. eauto.
    + intros (k' & Hk' & Hstate). apply Hclients.
      unfold setReadyState in Hk'.
      destruct (decide (ws = ws0)) as [->|Hne].
      * exists k. split; [assumption|]. rewrite Hopen. discriminate.
      * rewrite lookup_alter_ne in Hk' by assumption. eauto.
    + intros ws' k'. unfold setReadyState.
      destruct (decide (ws = ws')) as [->|Hne].
      * rewrite lookup_alter_eq, Hws. cbn. intros [= <-]. cbn.
        now apply (Hout ws' k).
      * rewrite lookup_alter_ne by assumption. apply Hout.
  - destruct (WebSocketV2.sockets p !! ws) as [k|] eqn:Hws;
      [|exact Hserving].
    case_bool_decide as Hclosed; [exact Hserving|].
    repeat split; cbn; try assumption.
    + intros Hin. apply elem_of_difference in Hin as [Hin Hne].
      apply Hclients in Hin as (k' & Hk' & Hstate).
      exists k'. split; [|assumption]. unfold setReadyState.
      rewrite lookup_alter_ne; [assumption|].
      intros ->. apply Hne. now apply elem_of_singleton.
    + intros (k' & Hk' & Hstate). unfold setReadyState in Hk'.
      destruct (decide (ws = ws0)) as [->|Hne].
      * rewrite lookup_alter_eq, Hws in Hk'. cbn in Hk'.
        injection Hk' as <-. now cbn in Hstate.
      * rewrite lookup_alter_ne in Hk' by assumption.
        apply elem_of_difference. split; [apply Hclients; eauto|].
        intros Hin. apply elem_of_singleton in Hin. congruence.
    + intros ws' k'. unfold setReadyState.
      destruct (decide (ws = ws')) as [->|Hne].
      * rewrite lookup_alter_eq, Hws. cbn. intros [= <-]. cbn.
        now apply (Hout ws' k).
      * rewrite lookup_alter_ne by assumption. apply Hout.
  - unfold WebSocketV2.broadcastEventUpdate. rewrite Hpub.
    unfold serving. cbn.
    repeat (split; [first [assumption | reflexivity]|]). assumption.
  - unfold WebSocketV2.onMessage. rewrite Hsub, Hset, andb_true_r.
    case_bool_decide; [|exact Hserving].
    unfold WebSocketV2.broadcastToClients. rewrite Hset. cbn [negb].
    repeat split; cbn; try assumption.
    + intros Hin. rewrite forEachClient_lookup, decide_True by assumption.
      apply Hclients in Hin as (k & -> & Hstate). cbn.
      eexists. split; [reflexivity|]. now rewrite reached_readyState.
    + intros (k & Hk & Hstate). apply Hclients.
      rewrite forEachClient_lookup in Hk.
      case_decide; [|eauto].
      destruct (WebSocketV2.sockets p !! ws) as [k0|]; [|discriminate].
      cbn in Hk. injection Hk as <-.
      rewrite reached_readyState in Hstate. eauto.
    + intros ws k. rewrite forEachClient_lookup.
      case_decide; [|apply Hout].
      destruct (WebSocketV2.sockets p !! ws) as [k0|] eqn:Hk0;
        [|discriminate].
      cbn. intros [= <-].
      destruct (Hout ws k0 Hk0) as (rest & Hbox & Hrest).
      rewrite reached_outbox, Hbox.
      eexists. split; [reflexivity|].
      apply Forall_app. split; [assumption|].
      case_bool_decide; repeat constructor.
      eexists. reflexivity.
Qed.

Lemma serving_run (evs : list WsEvent) :
  serving (ServerV2.run evs ServerV2.start).
Proof.
  unfold ServerV2.run.
  induction evs as [|ev evs IH] using rev_ind; [apply serving_start|].
  rewrite foldl_app. cbn. now apply serving_handle.
Qed.

(** X11. A server process of the second version, after any events: an
    update handed to [broadcastEventUpdate] goes to no socket directly but
    to Redis, and when the message published comes back to the process,
    every socket that is open at that moment is sent the frame
    [{ type: 'eventUpdate', data }] with that update exactly once, and
    every socket that is closing or closed is sent nothing. *)
Theorem update_round_trip (evs : list WsEvent) (eventData : EventUpdate.t)
    (ws : nat) :
  exists message : Text EventUpdate.t,
    WebSocketV2.redisOut (ServerV2.handle (Update eventData) (served evs))
    = WebSocketV2.redisOut (served evs) ++ [("websocket:broadcast", message)]
    /\ WebSocketV2.sockets (ServerV2.handle (Update eventData) (served evs))
       = WebSocketV2.sockets (served evs)
    /\ WebSocketV2.sockets
         (ServerV2.handle (RedisMessage "websocket:broadcast" message)
            (ServerV2.handle (Update eventData) (served evs)))
         !! ws
       = reached (updateFrame eventData)
           <$> WebSocketV2.sockets (served evs) !! ws.
Proof.
  unfold served.
  set (p := ServerV2.run evs ServerV2.start).
  set (p1 := ServerV2.handle (Update eventData) p).
  destruct (serving_run evs) as (Hset & Hpub & Hsub & _ & Hclients & _).
  fold p in Hset, Hpub, Hsub, Hclients.
  subst p1. cbn [ServerV2.handle].
  unfold WebSocketV2.broadcastEventUpdate. rewrite Hpub.
  eexists. split; [reflexivity|]. split; [reflexivity|].
  unfold WebSocketV2.onMessage, WebSocketV2.broadcastToClients.
  cbn -[forEachClient]. rewrite Hsub, Hset.
  rewrite bool_decide_eq_true_2 by reflexivity. cbn -[forEachClient].
  rewrite forEachClient_lookup.
  case_decide as Hin; [reflexivity|].
  destruct (WebSocketV2.sockets p !! ws) as [k|] eqn:Hk; [|reflexivity].
  cbn. unfold reached. case_bool_decide as Hopen; [|reflexivity].
  exfalso. apply Hin, Hclients. exists k. split; [assumption|].
  rewrite Hopen. discriminate.
Qed.

Lemma updatesOf_app (evs more : list WsEvent) :
  updatesOf (evs ++ more) = updatesOf evs ++ updatesOf more.
Proof. apply flat_map_app. Qed.

(** X12. The worker process of the second version (Redis initialised,
    no set of clients): whatever updates the service hands over and
    whatever messages come back from Redis, it publishes each update
    once, in order, on [websocket:broadcast], holds no socket and logs no
    error. *)
Theorem worker_publishes_every_update (evs : list WsEvent) :
  Forall workerEvent evs ->
  let p := ServerV2.run evs workerStart in
  WebSocketV2.redisOut p
  = map (fun e => ("websocket:broadcast", JSON_stringify e)) (updatesOf evs)
  /\ WebSocketV2.sockets p = ∅
  /\ WebSocketV2.errors p = 0%nat.
Proof.
  intros Hevs. cbv zeta. unfold ServerV2.run.
  assert (Hgen :
    WebSocketV2.redisOut (foldl (fun p ev => ServerV2.handle ev p)
                            workerStart evs)
    = map (fun e => ("websocket:broadcast", JSON_stringify e))
        (updatesOf evs)
    /\ WebSocketV2.sockets (foldl (fun p ev => ServerV2.handle ev p)
                             workerStart evs) = ∅
    /\ WebSocketV2.errors (foldl (fun p ev => ServerV2.handle ev p)
                            workerStart evs) = 0%nat
    /\ WebSocketV2.redisPublisher
         (foldl (fun p ev => ServerV2.handle ev p) workerStart evs) = true
    /\ WebSocketV2.connectedClients
         (foldl (fun p ev => ServerV2.handle ev p) workerStart evs)
       = false).
  { induction evs as [|ev evs IH] using rev_ind; [now repeat split|].
    apply Forall_app in Hevs as [Hevs Hev]. apply Forall_inv in Hev.
    destruct (IH Hevs) as (Hout & Hsockets & Herrors & Hpub & Hnull).
    rewrite foldl_app, updatesOf_app, map_app. cbn [foldl].
    destruct ev as [ws | ws | ws | e | e | channel message];
      try contradiction; cbn [ServerV2.handle].
    - unfold WebSocketV2.broadcastEventUpdate. rewrite Hpub. cbn.
      rewrite Hout. now repeat split.
    - unfold WebSocketV2.onMessage. rewrite Hnull, andb_false_r.
      cbn. rewrite app_nil_r.
      destruct (WebSocketV2.redisSubscriber _); now repeat split. }
  destruct Hgen as (? & ? & ? & _). now repeat split.
Qed.

Lemma worker_publishes_every_update_witness :
  WebSocketV2.redisOut
    (ServerV2.run
       [Update sampleUpdate;
        RedisMessage "websocket:broadcast" (JSON_stringify sampleUpdate)]
       workerStart)
  = [("websocket:broadcast", JSON_stringify sampleUpdate)].
Proof.
  apply (worker_publishes_every_update
           [Update sampleUpdate;
            RedisMessage "websocket:broadcast"
              (JSON_stringify sampleUpdate)]).
  repeat constructor.
Defined.

(** * The first server, event by event *)

(** What holds of the first server at every moment: its own set is
    empty, and the set of [utils/websocket.ts] holds exactly the sockets
    that are not closed. *)
Lemma serverV1_invariant (evs : list WsEvent) :
  let s := ServerV1.run evs ServerV1.start in
  ServerV1.clients s = ∅
  /\ (forall ws : nat,
        ws ∈ WebSocketV1.connectedClients (ServerV1.hub s)
        <-> exists k : Socket,
              WebSocketV1.sockets (ServerV1.hub s) !! ws = Some k
              /\ readyState k <> CLOSED).
Proof.
  cbv zeta. unfold ServerV1.run.
  induction evs as [|ev evs IH] using rev_ind.
  - split; [reflexivity|]. intros ws. cbn. split.
    + intros Hin. now apply not_elem_of_empty in Hin.
    + intros (k & Hk & _). now rewrite lookup_empty in Hk.
  - rewrite foldl_app. cbn [foldl].
    set (s := foldl (fun s ev => ServerV1.handle ev s) ServerV1.start evs)
      in *.
    destruct IH as [Hempty Hclients].
    destruct ev as [ws | ws | ws | e | e | channel message];
      cbn [ServerV1.handle].
    + destruct (WebSocketV1.sockets (ServerV1.hub s) !! ws) eqn:Hws;
        [now split|].
      split; [assumption|]. intros ws'. cbn. split.
      * intros Hin. apply elem_of_union in Hin as [Hin | Hin].
        -- apply Hclients in Hin as (k & Hk & Hstate).
           exists k. split; [|assumption].
           rewrite lookup_insert_ne; [assumption|congruence].
        -- apply elem_of_singleton in Hin as ->.
           eexists. split; [apply lookup_insert_eq|discriminate].
      * intros (k & Hk & Hstate). apply elem_of_union.
        destruct (decide (ws = ws')) as [->|Hne].
        -- right. now apply elem_of_singleton.
        -- left. apply Hclients. exists k.
           now rewrite lookup_insert_ne in Hk.
    + split; [assumption|]. intros ws'. cbn.
      destruct (WebSocketV1.sockets (ServerV1.hub s) !! ws) as [k|] eqn:Hws;
        [|apply Hclients].
      case_bool_decide as Hopen; [|apply Hclients].
      rewrite Hclients. unfold setReadyState.
      destruct (decide (ws = ws')) as [->|Hne].
      * rewrite lookup_alter_eq, Hws. cbn. split.
        -- intros _. eexists. split; [reflexivity|discriminate].
        -- intros _. exists k. split; [reflexivity|].
           rewrite Hopen. discriminate.
      * now rewrite lookup_alter_ne.
    + destruct (WebSocketV1.sockets (ServerV1.hub s) !! ws) as [k|] eqn:Hws;
        [|now split].
      case_bool_decide as Hclosed; [now split|].
      split; [cbn; rewrite Hempty; apply empty_difference_L|].
      intros ws'. cbn. unfold setReadyState. split.
      * intros Hin. apply elem_of_difference in Hin as [Hin Hne].
        apply Hclients in Hin as (k' & Hk' & Hstate).
        exists k'. split; [|assumption].
        rewrite lookup_alter_ne; [assumption|].
        intros ->. apply Hne. now apply elem_of_singleton.
      * intros (k' & Hk' & Hstate).
        destruct (decide (ws = ws')) as [->|Hne].
        -- rewrite lookup_alter_eq, Hws in Hk'. cbn in Hk'.
           injection Hk' as <-. now cbn in Hstate.
        -- rewrite lookup_alter_ne in Hk' by assumption.
           apply elem_of_difference. split; [apply Hclients; eauto|].
           intros Hin. apply elem_of_singleton in Hin. congruence.
    + split; [assumption|]. intros ws'. cbn.
      rewrite forEachClient_lookup, Hclients.
      case_decide as Hin.
      * destruct (WebSocketV1.sockets (ServerV1.hub s) !! ws') as [k|];
          cbn; [|split; intros (? & ? & _); discriminate].
        split; intros (k' & [= <-] & Hstate); eexists;
          (split; [reflexivity|]);
          now rewrite ?reached_readyState in *.
      * reflexivity.
    + split; [assumption|]. intros ws'. cbn.
      rewrite Hempty. unfold forEachClient.
      rewrite elements_empty. cbn. apply Hclients.
    + now split.
Qed.

(** Every frame the first server ever sent is an update frame of
    [utils/websocket.ts]. *)
Lemma serverV1_frames (evs : list WsEvent) (ws : nat) (k : Socket) :
  WebSocketV1.sockets (ServerV1.hub (ServerV1.run evs ServerV1.start)) !! ws
  = Some k ->
  Forall (fun text => exists e, text = updateFrame e) (outbox k).
Proof.
  unfold ServerV1.run. revert ws k.
  induction evs as [|ev evs IH] using rev_ind; intros ws' k'.
  - cbn. now rewrite lookup_empty.
  - rewrite foldl_app. cbn [foldl].
    destruct (serverV1_invariant evs) as [Hempty _].
    unfold ServerV1.run in Hempty.
    set (s := foldl (fun s ev => ServerV1.handle ev s) ServerV1.start evs)
      in *.
    destruct ev as [ws | ws | ws | e | e | channel message];
      cbn [ServerV1.handle].
    + destruct (WebSocketV1.sockets (ServerV1.hub s) !! ws) eqn:Hws;
        [apply IH|].
      cbn. rewrite lookup_insert. case_decide; [|apply IH].
      intros [= <-]. constructor.
    + cbn.
      destruct (WebSocketV1.sockets (ServerV1.hub s) !! ws) as [k|] eqn:Hws;
        [|apply IH].
      case_bool_decide; [|apply IH]. unfold setReadyState.
      destruct (decide (ws = ws')) as [->|Hne].
      * rewrite lookup_alter_eq, Hws. cbn. intros [= <-]. cbn. eauto.
      * rewrite lookup_alter_ne by assumption. apply IH.
    + destruct (WebSocketV1.sockets (ServerV1.hub s) !! ws) as [k|] eqn:Hws;
        [|apply IH].
      case_bool_decide; [apply IH|]. cbn. unfold setReadyState.
      destruct (decide (ws = ws')) as [->|Hne].
      * rewrite lookup_alter_eq, Hws. cbn. intros [= <-]. cbn. eauto.
      * rewrite lookup_alter_ne by assumption. apply IH.
    + cbn. rewrite forEachClient_lookup. case_decide; [|apply IH].
      destruct (WebSocketV1.sockets (ServerV1.hub s) !! ws') as [k|] eqn:Hk;
        [|discriminate].
      cbn. intros [= <-]. rewrite reached_outbox.
      apply Forall_app. split; [eauto|].
      case_bool_decide; repeat constructor. eexists. reflexivity.
    + cbn. rewrite Hempty. unfold forEachClient.
      rewrite elements_empty. cbn. apply IH.
    + apply IH.
Qed.

(** X13. In the first [server.ts] the set [clients] stays empty whatever
    happens (connections register with [utils/websocket.ts] only, and the
    [close] handler only deletes), so the [broadcastEventUpdate] that
    [server.ts] exports never sends anything: it leaves every socket as
    it is. *)
Theorem server_own_broadcast_is_dead (evs : list WsEvent)
    (eventData : EventUpdate.t) :
  ServerV1.clients (servedV1 evs) = ∅
  /\ WebSocketV1.sockets
       (ServerV1.hub
          (ServerV1.broadcastEventUpdate eventData (servedV1 evs)))
     = WebSocketV1.sockets (ServerV1.hub (servedV1 evs)).
Proof.
  unfold servedV1. destruct (serverV1_invariant evs) as [Hempty _].
  split; [assumption|].
  unfold ServerV1.broadcastEventUpdate. cbn.
  rewrite Hempty. unfold forEachClient. now rewrite elements_empty.
Qed.

(** X14. In the first server, after any events, an update handed to
    [broadcastEventUpdate] of [utils/websocket.ts] is sent exactly once
    on every socket that is open and on no socket that is closing or
    closed: the set of clients holds every socket until its [close]
    event. *)
Theorem serverV1_update_reaches_open (evs : list WsEvent)
    (eventData : EventUpdate.t) (ws : nat) :
  WebSocketV1.sockets
    (ServerV1.hub (ServerV1.handle (Update eventData) (servedV1 evs))) !! ws
  = reached (updateFrame eventData)
      <$> WebSocketV1.sockets (ServerV1.hub (servedV1 evs)) !! ws.
Proof.
  unfold servedV1. destruct (serverV1_invariant evs) as [_ Hclients].
  cbn [ServerV1.handle ServerV1.hub].
  unfold WebSocketV1.broadcastEventUpdate. cbn [WebSocketV1.sockets].
  rewrite forEachClient_lookup.
  case_decide as Hin; [reflexivity|].
  destruct (WebSocketV1.sockets _ !! ws) as [k|] eqn:Hk; [|reflexivity].
  cbn. unfold reached. case_bool_decide as Hopen; [|reflexivity].
  exfalso. apply Hin, Hclients. exists k. split; [assumption|].
  rewrite Hopen. discriminate.
Qed.

(** * The front end *)

Lemma findIndex_ge {A : Type} (test : A -> bool) (l : list A) :
  -1 <= Frontend.findIndex test l.
Proof.
  induction l as [|x l IH]; cbn; [lia|].
  destruct (test x); [lia|].
  destruct (Z.eqb_spec (Frontend.findIndex test l) (-1)); lia.
Qed.

Lemma applyUpdate_nil (u : EventUpdate.t) : Frontend.applyUpdate u [] = [u].
Proof. reflexivity. Qed.

(** The updater, read along the list. *)
Lemma applyUpdate_cons (u x : EventUpdate.t) (l : list EventUpdate.t) :
  Frontend.applyUpdate u (x :: l)
  = if bool_decide (EventUpdate.id x = EventUpdate.id u) then u :: l
    else x :: Frontend.applyUpdate u l.
Proof.
  unfold Frontend.applyUpdate. cbn [Frontend.findIndex].
  case_bool_decide; [reflexivity|].
  set (test := fun e => bool_decide (EventUpdate.id e = EventUpdate.id u)).
  pose proof (findIndex_ge test l) as Hge.
  destruct (Z.eqb_spec (Frontend.findIndex test l) (-1)) as [Hnone|Hsome].
  - rewrite Hnone. reflexivity.
  - replace (Frontend.findIndex test l + 1 >? -1) with true
      by (symmetry; apply Z.gtb_lt; lia).
    replace (Frontend.findIndex test l >? -1) with true
      by (symmetry; apply Z.gtb_lt; lia).
    replace (Z.to_nat (Frontend.findIndex test l + 1))
      with (S (Z.to_nat (Frontend.findIndex test l))) by lia.
    reflexivity.
Qed.

Lemma shown_applyUpdate (u : EventUpdate.t) (l : list EventUpdate.t)
    (key : string) :
  Frontend.shown key (Frontend.applyUpdate u l)
  = if decide (key = EventUpdate.id u) then Some u
    else Frontend.shown key l.
Proof.
  unfold Frontend.shown. induction l as [|x l IH].
  - rewrite applyUpdate_nil. cbn.
    case_decide as Hkey.
    + now rewrite bool_decide_eq_true_2.
    + rewrite bool_decide_eq_false_2; [reflexivity|congruence].
  - rewrite applyUpdate_cons. case_bool_decide as Hid; cbn.
    + case_decide as Hkey.
      * now rewrite bool_decide_eq_true_2.
      * rewrite bool_decide_eq_false_2 by congruence.
        rewrite bool_decide_eq_false_2 by congruence. reflexivity.
    + case_bool_decide as Hx; [|exact IH].
      rewrite decide_False; [reflexivity|congruence].
Qed.

Lemma ids_applyUpdate (u : EventUpdate.t) (l : list EventUpdate.t) :
  map EventUpdate.id (Frontend.applyUpdate u l)
  = if decide (EventUpdate.id u ∈ map EventUpdate.id l)
    then map EventUpdate.id l
    else map EventUpdate.id l ++ [EventUpdate.id u].
Proof.
  induction l as [|x l IH].
  - rewrite applyUpdate_nil. cbn. case_decide as Hin; [inversion Hin|].
    reflexivity.
  - rewrite applyUpdate_cons. case_bool_decide as Hid; cbn.
    + rewrite decide_True by (rewrite Hid; left). now rewrite Hid.
    + rewrite IH. case_decide as Hin.
      * rewrite decide_True by now right. reflexivity.
      * rewrite decide_False; [reflexivity|].
        intros Hin'. apply elem_of_cons in Hin' as [?|?]; congruence.
Qed.

Lemma applyUpdate_NoDup (u : EventUpdate.t) (l : list EventUpdate.t) :
  NoDup (map EventUpdate.id l) ->
  NoDup (map EventUpdate.id (Frontend.applyUpdate u l)).
Proof.
  intros Hdistinct. rewrite ids_applyUpdate.
  case_decide as Hin; [assumption|].
  apply NoDup_app. split; [assumption|]. split.
  - intros x Hx Hu. apply list_elem_of_singleton in Hu as ->. contradiction.
  - apply NoDup_singleton.
Qed.

(** X15. The updater of the front end, for an update [u] and any list:
    afterwards the row shown for [u]'s id is [u] and the row shown for
    every other id is the one shown before; the ids in the list are the
    same, in the same order, when the id was there already, and have the
    new id at the end otherwise; and ids that were pairwise distinct stay
    so. *)
Theorem applyUpdate_upserts (u : EventUpdate.t) (l : list EventUpdate.t)
    (key : string) :
  Frontend.shown key (Frontend.applyUpdate u l)
  = (if decide (key = EventUpdate.id u) then Some u
     else Frontend.shown key l)
  /\ map EventUpdate.id (Frontend.applyUpdate u l)
     = (if decide (EventUpdate.id u ∈ map EventUpdate.id l)
        then map EventUpdate.id l
        else map EventUpdate.id l ++ [EventUpdate.id u])
  /\ (NoDup (map EventUpdate.id l) ->
      NoDup (map EventUpdate.id (Frontend.applyUpdate u l))).
Proof.
  split; [apply shown_applyUpdate|]. split; [apply ids_applyUpdate|].
  apply applyUpdate_NoDup.
Qed.

Lemma onmessage_payloadFrame (u : EventUpdate.t)
    (events : list EventUpdate.t) :
  Frontend.onmessage (payloadFrame u) events = Frontend.applyUpdate u events.
Proof. reflexivity. Qed.

Lemma latest_snoc (key : string) (updates : list EventUpdate.t)
    (u : EventUpdate.t) :
  latest key (updates ++ [u])
  = if decide (key = EventUpdate.id u) then Some u else latest key updates.
Proof.
  unfold latest. rewrite filter_app.
  case_decide as Hkey.
  - rewrite filter_cons_True by congruence.
    rewrite filter_nil. apply last_snoc.
  - rewrite filter_cons_False by congruence.
    rewrite filter_nil. now rewrite app_nil_r.
Qed.

(** X16. The front end, fed frames [{ type: "EVENT_UPDATE", payload }]
    for a sequence of updates, starting from any list whose ids are
    pairwise distinct: for every id the row shown is the last update
    received for that id, or the row shown at the start when none was
    received; and the ids stay pairwise distinct. *)
Theorem front_end_shows_latest (updates : list EventUpdate.t)
    (events : list EventUpdate.t) (key : string) :
  NoDup (map EventUpdate.id events) ->
  let final := afterFrames (map payloadFrame updates) events in
  Frontend.shown key final
  = match latest key updates with
    | Some u => Some u
    | None => Frontend.shown key events
    end
  /\ NoDup (map EventUpdate.id final).
Proof.
  intros Hdistinct. cbv zeta. unfold afterFrames.
  induction updates as [|u updates IH] using rev_ind.
  - cbn. now split.
  - rewrite map_app, foldl_app. cbn [map foldl].
    rewrite onmessage_payloadFrame.
    destruct IH as [Hshown Hids].
    rewrite shown_applyUpdate.
    split; [|now apply applyUpdate_NoDup].
    rewrite latest_snoc. case_decide; [reflexivity|exact Hshown].
Qed.

Lemma front_end_shows_latest_witness :
  Frontend.shown "e1"
    (afterFrames
       (map payloadFrame
          [sampleUpdate;
           EventService.eventData
             (processingRow (attemptAt 7100 true)
                (EventModel.newRow "e1" sampleData 7000))])
       [])
  = Some (EventService.eventData
            (processingRow (attemptAt 7100 true)
               (EventModel.newRow "e1" sampleData 7000))).
Proof.
  destruct (front_end_shows_latest
              [sampleUpdate;
               EventService.eventData
                 (processingRow (attemptAt 7100 true)
                    (EventModel.newRow "e1" sampleData 7000))]
              [] "e1") as [-> _]; [constructor|].
  vm_compute. reflexivity.
Defined.

(** The greeting and the update frames of [utils/websocket.ts] are not
    of the type the front end listens for. *)
Lemma onmessage_ignores_utils_frames (text : Text Frame)
    (events : list EventUpdate.t) :
  text = ServerV2.greeting \/ (exists e, text = updateFrame e) ->
  Frontend.onmessage text events = events.
Proof. now intros [-> | [e ->]]. Qed.

(** X17. Whatever happens in a server process, of the first version or
    of the second, no frame it ever sent on a socket changes the list of
    the front end: the frames carry the type ['eventUpdate'] (or
    ["connected"]) and the member [data], and the handler of the front
    end acts only on the type ["EVENT_UPDATE"] with a member
    [payload]. *)
Theorem front_end_ignores_server_frames (evs : list WsEvent) (ws : nat)
    (k : Socket) (text : Text Frame) (events : list EventUpdate.t) :
  WebSocketV1.sockets (ServerV1.hub (ServerV1.run evs ServerV1.start)) !! ws
  = Some k
  \/ WebSocketV2.sockets (ServerV2.run evs ServerV2.start) !! ws = Some k ->
  text ∈ outbox k ->
  Frontend.onmessage text events = events.
Proof.
  intros [Hk | Hk] Hin; apply onmessage_ignores_utils_frames.
  - right. pose proof (serverV1_frames evs ws k Hk) as Hframes.
    rewrite Forall_forall in Hframes. now apply Hframes.
  - destruct (serving_run evs) as (_ & _ & _ & _ & _ & Hout).
    destruct (Hout ws k Hk) as (rest & Hbox & Hrest).
    rewrite Hbox in Hin. apply elem_of_cons in Hin as [-> | Hin];
      [now left|].
    right. rewrite Forall_forall in Hrest. now apply Hrest.
Qed.

(** One client connects to a server of the second version, then an
    update goes through Redis and back. *)
Lemma front_end_ignores_server_frames_witness :
  Frontend.onmessage (updateFrame sampleUpdate) [] = [].
Proof.
  apply (front_end_ignores_server_frames
           [Connection 1; Update sampleUpdate;
            RedisMessage "websocket:broadcast" (JSON_stringify sampleUpdate)]
           1
           {| readyState := OPEN;
              outbox := [ServerV2.greeting; updateFrame sampleUpdate] |}).
  - right. vm_compute. reflexivity.
  - cbn. right. left.
Defined.

(** * The e-mail check *)

Lemma matches_seq_inv (r1 r2 : Regex) (s : list N) :
  matches (Seq r1 r2) s
  <-> exists s1 s2, s = s1 ++ s2 /\ matches r1 s1 /\ matches r2 s2.
Proof.
  split.
  - intros H. inversion H; subst. eauto.
  - intros (s1 & s2 & -> & H1 & H2). now constructor.
Qed.

Lemma nullable_spec (r : Regex) : nullable r = true <-> matches r [].
Proof.
  induction r as [| |member|r1 IH1 r2 IH2|r1 IH1 r2 IH2|r IH]; cbn.
  - split; [discriminate|]. intros H. inversion H.
  - split; [constructor|reflexivity].
  - split; [discriminate|]. intros H. inversion H.
  - rewrite andb_true_iff, IH1, IH2. split.
    + intros [H1 H2]. now apply (matches_seq r1 r2 [] []).
    + intros H. apply matches_seq_inv in H as (s1 & s2 & Heq & H1 & H2).
      symmetry in Heq. apply app_eq_nil in Heq as [-> ->]. now split.
  - rewrite orb_true_iff, IH1, IH2. split.
    + intros [H|H]; [now apply matches_alt_l|now apply matches_alt_r].
    + intros H. inversion H; subst; auto.
  - split; [constructor|reflexivity].
Qed.

(** A non-empty match of [r*] starts with a non-empty match of [r]. *)
Lemma matches_star_cons (r : Regex) (c : N) (s : list N) :
  matches (Star r) (c :: s) ->
  exists s1 s2 : list N,
    s = s1 ++ s2 /\ matches r (c :: s1) /\ matches (Star r) s2.
Proof.
  intros H. remember (Star r) as r' eqn:Hr'. remember (c :: s) as t eqn:Ht.
  revert c s Ht.
  induction H as [| | | | | |r0 s1 s2 H1 _ H2 IH2]; try discriminate.
  injection Hr' as ->. intros c s Ht.
  destruct s1 as [|c1 s1].
  - cbn in Ht. now apply IH2.
  - cbn in Ht. injection Ht as -> <-. eauto.
Qed.

Lemma derivative_spec (c : N) (r : Regex) (s : list N) :
  matches (derivative c r) s <-> matches r (c :: s).
Proof.
  revert s.
  induction r as [| |member|r1 IH1 r2 IH2|r1 IH1 r2 IH2|r IH];
    intros s; cbn.
  - split; intros H; inversion H.
  - split; intros H; inversion H.
  - destruct (member c) eqn:Hc; split; intros H; inversion H; subst.
    + now constructor.
    + constructor.
    + congruence.
  - assert (Hseq :
      matches (Seq (derivative c r1) r2) s
      <-> exists s1 s2, s = s1 ++ s2 /\ matches r1 (c :: s1)
                        /\ matches r2 s2).
    { split.
      - intros H. inversion H as [| |? ? s1 s2 H1 H2| | | |]; subst.
        apply IH1 in H1. eauto.
      - intros (s1 & s2 & -> & H1 & H2). constructor; [|assumption].
        now apply IH1. }
    destruct (nullable r1) eqn:Hnull.
    + split.
      * intros H. inversion H as [| | |? ? ? H1|? ? ? H2| |]; subst.
        -- apply Hseq in H1 as (s1 & s2 & -> & H1 & H2).
           now apply (matches_seq r1 r2 (c :: s1) s2).
        -- apply IH2 in H2. apply nullable_spec in Hnull.
           now apply (matches_seq r1 r2 [] (c :: s)).
      * intros H. apply matches_seq_inv in H as (s1 & s2 & Heq & H1 & H2).
        destruct s1 as [|c1 s1]; cbn in Heq.
        -- subst s2. apply matches_alt_r. now apply IH2.
        -- injection Heq as <- ->. apply matches_alt_l, Hseq. eauto.
    + rewrite Hseq. split.
      * intros (s1 & s2 & -> & H1 & H2).
        now apply (matches_seq r1 r2 (c :: s1) s2).
      * intros H. apply matches_seq_inv in H as (s1 & s2 & Heq & H1 & H2).
        destruct s1 as [|c1 s1]; cbn in Heq.
        -- apply nullable_spec in H1. congruence.
        -- injection Heq as <- ->. eauto.
  - split.
    + intros H. inversion H; subst.
      * apply matches_alt_l. now apply IH1.
      * apply matches_alt_r. now apply IH2.
    + intros H. inversion H; subst.
      * apply matches_alt_l. now apply IH1.
      * apply matches_alt_r. now apply IH2.
  - split.
    + intros H. inversion H as [| |? ? s1 s2 H1 H2| | | |]; subst.
      apply IH in H1.
      now apply (matches_star_app r (c :: s1) s2).
    + intros H. apply matches_star_cons in H as (s1 & s2 & -> & H1 & H2).
      constructor; [|assumption]. now apply IH.
Qed.

(** [test] decides the language of the expression. *)
Lemma test_spec (r : Regex) (s : list N) : test r s = true <-> matches r s.
Proof.
  unfold test. revert r. induction s as [|c s IH]; intros r; cbn.
  - apply nullable_spec.
  - rewrite IH. apply derivative_spec.
Qed.

Lemma matches_class_inv (member : N -> bool) (s : list N) :
  matches (Class member) s <-> exists c, s = [c] /\ member c = true.
Proof.
  split.
  - intros H. inversion H; subst. eauto.
  - intros (c & -> & Hc). now constructor.
Qed.

Lemma matches_star_class (member : N -> bool) (s : list N) :
  matches (Star (Class member)) s <-> forallb member s = true.
Proof.
  split.
  - intros H. remember (Star (Class member)) as r eqn:Hr.
    induction H as [| | | | | |r0 s1 s2 H1 _ H2 IH2]; try discriminate.
    + reflexivity.
    + injection Hr as ->. apply matches_class_inv in H1 as (c & -> & Hc).
      cbn. rewrite Hc. now apply IH2.
  - induction s as [|c s IH]; cbn; [constructor|].
    intros H. apply andb_true_iff in H as [Hc Hs].
    apply (matches_star_app (Class member) [c] s); [now constructor|auto].
Qed.

Lemma matches_plus_class (member : N -> bool) (s : list N) :
  matches (Plus (Class member)) s <-> s <> [] /\ forallb member s = true.
Proof.
  unfold Plus. split.
  - intros H. inversion H as [| |? ? s1 s2 H1 H2| | | |]; subst.
    apply matches_class_inv in H1 as (c & -> & Hc).
    apply matches_star_class in H2. cbn. rewrite Hc. now split.
  - intros [Hne Hall]. destruct s as [|c s]; [contradiction|].
    cbn in Hall. apply andb_true_iff in Hall as [Hc Hs].
    apply (matches_seq (Class member) _ [c] s); [now constructor|].
    now apply matches_star_class.
Qed.

Lemma matches_chr (c : N) (s : list N) : matches (Chr c) s <-> s = [c].
Proof.
  unfold Chr. rewrite matches_class_inv. split.
  - intros (c' & -> & Hc). apply N.eqb_eq in Hc. now subst.
  - intros ->. exists c. split; [reflexivity|apply N.eqb_refl].
Qed.

(** X18. The e-mail pattern of the controller (and of the form) accepts
    a sequence of code units exactly when it is a non-empty local part,
    one [@], and a domain made of a non-empty part, a full stop and a
    non-empty part, where no part holds white space or an [@] (a part
    may hold further full stops).  So "a@b" is refused and "a@b.c"
    accepted. *)
Theorem emailTest_spec (units : list N) :
  test emailRegex units = true
  <-> exists local before after : list N,
        units = local ++ [at_sign] ++ before ++ [full_stop] ++ after
        /\ local <> [] /\ before <> [] /\ after <> []
        /\ forallb plain local = true
        /\ forallb plain before = true
        /\ forallb plain after = true.
Proof.
  rewrite test_spec. unfold emailRegex.
  rewrite matches_seq_inv. split.
  - intros (local & rest & -> & Hlocal & Hrest).
    apply matches_seq_inv in Hrest as (a & rest1 & -> & Ha & Hrest).
    apply matches_seq_inv in Hrest as (before & rest2 & -> & Hbefore & Hrest).
    apply matches_seq_inv in Hrest as (d & after & -> & Hd & Hafter).
    apply matches_chr in Ha as ->. apply matches_chr in Hd as ->.
    apply matches_plus_class in Hlocal as [? ?].
    apply matches_plus_class in Hbefore as [? ?].
    apply matches_plus_class in Hafter as [? ?].
    exists local, before, after. now repeat split.
  - intros (local & before & after & -> & ? & ? & ? & ? & ? & ?).
    exists local, ([at_sign] ++ before ++ [full_stop] ++ after).
    split; [reflexivity|]. split; [now apply matches_plus_class|].
    apply matches_seq_inv. exists [at_sign], (before ++ [full_stop] ++ after).
    split; [reflexivity|]. split; [now apply matches_chr|].
    apply matches_seq_inv. exists before, ([full_stop] ++ after).
    split; [reflexivity|]. split; [now apply matches_plus_class|].
    apply matches_seq_inv. exists [full_stop], after.
    split; [reflexivity|]. split; [now apply matches_chr|].
    now apply matches_plus_class.
Qed.

(** ** The code units of a string *)

(** Reading the bytes of one code unit gives the unit back. *)
Lemma utf16_utf8 (unit : N) (rest : list N) :
  (unit < 65536)%N ->
  utf16 (utf8 unit ++ rest) = unit :: utf16 rest.
Proof.
  intros Hunit. unfold utf8.
  destruct (N.ltb_spec unit 128) as [Hone | Hone].
  { cbn [app utf16]. apply N.ltb_lt in Hone. now rewrite Hone. }
  pose proof (N.div_mod unit 64 ltac:(discriminate)) as Hdiv.
  pose proof (N.mod_lt unit 64 ltac:(discriminate)) as Hmod.
  destruct (N.ltb_spec unit 2048) as [Htwo | Htwo].
  - cbn [app utf16]. unfold continuation.
    generalize dependent (unit / 64)%N. generalize dependent (unit mod 64)%N.
    intros r Hr q Hq.
    replace (192 + q <? 128)%N with false by (symmetry; apply N.ltb_ge; lia).
    replace (192 <=? 192 + q)%N with true by (symmetry; apply N.leb_le; lia).
    replace (192 + q <? 224)%N with true by (symmetry; apply N.ltb_lt; lia).
    replace (128 <=? 128 + r)%N with true by (symmetry; apply N.leb_le; lia).
    replace (128 + r <? 192)%N with true by (symmetry; apply N.ltb_lt; lia).
    replace ((192 + q - 192) * 64 + (128 + r - 128))%N with unit by lia.
    replace (128 <=? unit)%N with true by (symmetry; apply N.leb_le; lia).
    reflexivity.
  - replace (unit / 4096)%N with (unit / 64 / 64)%N
      by (now rewrite N.Div0.div_div).
    pose proof (N.div_mod (unit / 64) 64 ltac:(discriminate)) as Hdiv'.
    pose proof (N.mod_lt (unit / 64) 64 ltac:(discriminate)) as Hmod'.
    cbn [app utf16]. unfold continuation.
    generalize dependent (unit / 64 / 64)%N.
    generalize dependent ((unit / 64) mod 64)%N.
    generalize dependent (unit / 64)%N. generalize dependent (unit mod 64)%N.
    intros r Hr q Hq r' Hr' q' Hq'.
    replace (224 + q' <? 128)%N with false by (symmetry; apply N.ltb_ge; lia).
    replace (224 + q' <? 224)%N with false by (symmetry; apply N.ltb_ge; lia).
    rewrite andb_false_r. cbn [andb].
    replace (224 <=? 224 + q')%N with true by (symmetry; apply N.leb_le; lia).
    replace (224 + q' <? 240)%N with true by (symmetry; apply N.ltb_lt; lia).
    replace (128 <=? 128 + r')%N with true by (symmetry; apply N.leb_le; lia).
    replace (128 + r' <? 192)%N with true by (symmetry; apply N.ltb_lt; lia).
    replace (128 <=? 128 + r)%N with true by (symmetry; apply N.leb_le; lia).
    replace (128 + r <? 192)%N with true by (symmetry; apply N.ltb_lt; lia).
    replace ((224 + q' - 224) * 4096 + (128 + r' - 128) * 64
             + (128 + r - 128))%N with unit by lia.
    replace (2048 <=? unit)%N with true by (symmetry; apply N.leb_le; lia).
    reflexivity.
Qed.

(** The bytes of a code unit are bytes. *)
Lemma utf8_bytes (unit : N) :
  (unit < 65536)%N -> Forall (fun b => (b < 256)%N) (utf8 unit).
Proof.
  intros Hunit. unfold utf8.
  pose proof (N.div_mod unit 64 ltac:(discriminate)) as Hdiv.
  pose proof (N.mod_lt unit 64 ltac:(discriminate)) as Hmod.
  pose proof (N.div_mod (unit / 64) 64 ltac:(discriminate)) as Hdiv'.
  pose proof (N.mod_lt (unit / 64) 64 ltac:(discriminate)) as Hmod'.
  replace (unit / 4096)%N with (unit / 64 / 64)%N
    by (now rewrite N.Div0.div_div).
  generalize dependent (unit / 64 / 64)%N.
  generalize dependent ((unit / 64) mod 64)%N.
  generalize dependent (unit / 64)%N. generalize dependent (unit mod 64)%N.
  intros r Hr q Hq r' Hr' q' Hq'.
  destruct (N.ltb_spec unit 128);
    [repeat (constructor; [lia|]); constructor|].
  destruct (N.ltb_spec unit 2048);
    repeat (constructor; [lia|]); constructor.
Qed.

(** Every sequence of code units is the sequence of code units of a
    string, [ofCodes] of it: [codes] reaches all of them. *)
Lemma codes_ofCodes (units : list N) :
  Forall (fun unit => (unit < 65536)%N) units ->
  codes (ofCodes units) = units.
Proof.
  intros Hunits. unfold codes, ofCodes.
  rewrite list_ascii_of_string_of_list_ascii, map_map.
  assert (Hbytes :
    map (fun b => Ascii.N_of_ascii (Ascii.ascii_of_N b))
      (flat_map utf8 units)
    = flat_map utf8 units).
  { induction Hunits as [|unit units Hunit _ IH]; [reflexivity|].
    cbn [flat_map]. rewrite map_app, IH. f_equal.
    pose proof (utf8_bytes unit Hunit) as Hb.
    induction Hb as [|b bs Hlt _ IHb]; [reflexivity|].
    cbn [map]. now rewrite Ascii.N_ascii_embedding, IHb. }
  rewrite Hbytes. clear Hbytes.
  induction Hunits as [|unit units Hunit _ IH]; [reflexivity|].
  cbn [flat_map]. rewrite utf16_utf8 by assumption. now rewrite IH.
Qed.

(** The check of the controller on a string is the pattern on the code
    units of the string; an address with a letter outside ASCII
    passes. *)
Lemma emailTest_codes (recipientEmail : string) :
  emailTest recipientEmail = test emailRegex (codes recipientEmail).
Proof. reflexivity. Qed.

Lemma emailTest_accented :
  codes "à@b.c" = [224; at_sign; 98; full_stop; 99]%N
  /\ emailTest "à@b.c" = true.
Proof. split; vm_compute; reflexivity. Qed.

(** * The controller *)

(** A request that passes the checks is handed to the service as it
    is. *)
Lemma controller_accepted (Date_parse : string -> option Z)
    (env : ScheduleEnv) (body : Body.t) (data : CreateEventData.t)
    (w : World) :
  accepted Date_parse body data ->
  EventController.scheduleEvent Date_parse env body w
  = match EventService.scheduleEvent env data w with
    | (Ok newEvent, w') =>
        (Responded
           {| statusCode := 201;
              json :=
                WithEvent "Event scheduled successfully!"
                  {| ScheduledView.id := id newEvent;
                     ScheduledView.message := message newEvent;
                     ScheduledView.recipientEmail := recipientEmail newEvent;
                     ScheduledView.sendAt := toISOString (sendAt newEvent);
                     ScheduledView.status := status newEvent |} |},
         w')
    | (Throw error, w') => (Next error, w')
    end.
Proof.
  intros (Hm & Hm' & Hr & Hr' & send_at & Hs & Hs' & Hparse).
  destruct data as [m r t].
  cbn [CreateEventData.message CreateEventData.recipientEmail
       CreateEventData.sendAt] in *.
  unfold EventController.scheduleEvent. rewrite Hm, Hr, Hs.
  assert (Hr0 : r <> "") by (intros ->; vm_compute in Hr'; discriminate).
  cbn [asText]. rewrite !bool_decide_eq_false_2 by assumption.
  rewrite Hr', Hparse. reflexivity.
Qed.

(** The checks decide. *)
Lemma accepted_or_not (Date_parse : string -> option Z) (body : Body.t) :
  (exists data, accepted Date_parse body data)
  \/ ~ (exists data, accepted Date_parse body data).
Proof.
  destruct (Body.message body) as [|m|] eqn:Hm;
    [right; intros (d & H & _); congruence | |
     right; intros (d & H & _); congruence].
  destruct (decide (m = "")) as [->|Hm'].
  { right. intros (d & H & Hne & _). congruence. }
  destruct (Body.recipientEmail body) as [|r|] eqn:Hr;
    [right; intros (d & _ & _ & H & _); congruence | |
     right; intros (d & _ & _ & H & _); congruence].
  destruct (emailTest r) eqn:Hr'.
  2:{ right. intros (d & _ & _ & H & Htest & _). congruence. }
  destruct (Body.send_at body) as [|s|] eqn:Hs;
    [right; intros (d & _ & _ & _ & _ & s' & H & _); congruence | |
     right; intros (d & _ & _ & _ & _ & s' & H & _); congruence].
  destruct (decide (s = "")) as [->|Hs'].
  { right. intros (d & _ & _ & _ & _ & s' & H & Hne & _). congruence. }
  destruct (Date_parse s) as [t|] eqn:Hparse.
  2:{ right. intros (d & _ & _ & _ & _ & s' & H & _ & Hp). congruence. }
  left.
  exists {| CreateEventData.message := m;
            CreateEventData.recipientEmail := r;
            CreateEventData.sendAt := t |}.
  unfold accepted. cbn. repeat split; try assumption. eauto.
Qed.

(** A request that does not pass them is answered 400 on the spot. *)
Lemma controller_rejected (Date_parse : string -> option Z)
    (env : ScheduleEnv) (body : Body.t) (w : World) :
  ~ (exists data, accepted Date_parse body data) ->
  exists message : string,
    EventController.scheduleEvent Date_parse env body w
    = (badRequest message, w).
Proof.
  intros Hnot. unfold EventController.scheduleEvent.
  destruct (Body.message body) as [|m|] eqn:Hm; cbn [asText]; [eauto| |eauto].
  case_bool_decide as Hm'; [eauto|].
  destruct (Body.recipientEmail body) as [|r|] eqn:Hr; cbn [asText];
    [eauto| |eauto].
  case_bool_decide as Hr0; [eauto|].
  destruct (emailTest r) eqn:Hr'; cbn [negb]; [|eauto].
  destruct (Body.send_at body) as [|s|] eqn:Hs; cbn [asText];
    [eauto| |eauto].
  case_bool_decide as Hs'; [eauto|].
  destruct (Date_parse s) as [t|] eqn:Hparse; [|eauto].
  exfalso. apply Hnot.
  exists {| CreateEventData.message := m;
            CreateEventData.recipientEmail := r;
            CreateEventData.sendAt := t |}.
  unfold accepted. cbn. repeat split; try assumption. eauto.
Qed.

Lemma scheduleEvent_throws_one_error (env : ScheduleEnv)
    (data : CreateEventData.t) (w w' : World) (error : string) :
  EventService.scheduleEvent env data w = (Throw error, w') ->
  error = "Failed to schedule event.".
Proof.
  rewrite scheduleEvent_eq.
  destruct (rejects (create env)); [congruence|].
  destruct (db w !! uuid env); [congruence|].
  destruct (addRejects env); [congruence|discriminate].
Qed.

(** X19. [POST /api/events] answers 400 exactly when the body does not
    pass the checks (message a non-empty string, recipient a string that
    passes the e-mail check, [send_at] a non-empty string that parses to
    a date); it then has not called the service: table, queue and bus are
    untouched.  Every answer is 201, 400 or 500. *)
Theorem bad_request_iff_not_accepted (Date_parse : string -> option Z)
    (env : ScheduleEnv) (body : Body.t) (w : World) :
  (statusCode (fst (postEvents Date_parse env body w)) = 400
   <-> ~ (exists data, accepted Date_parse body data))
  /\ (statusCode (fst (postEvents Date_parse env body w)) = 400 ->
      snd (postEvents Date_parse env body w) = w)
  /\ (statusCode (fst (postEvents Date_parse env body w)) = 201
      \/ statusCode (fst (postEvents Date_parse env body w)) = 400
      \/ statusCode (fst (postEvents Date_parse env body w)) = 500).
Proof.
  unfold postEvents.
  pose proof (accepted_or_not Date_parse body) as Hcases.
  destruct Hcases as [[data Hacc] | Hnot].
  - rewrite (controller_accepted _ env _ data w Hacc).
    destruct (EventService.scheduleEvent env data w) as [[e|error] w'];
      cbn.
    + split; [split; [discriminate|intros Hn; exfalso; eauto]|].
      split; [discriminate|now left].
    + split; [split; [discriminate|intros Hn; exfalso; eauto]|].
      split; [discriminate|now right; right].
  - destruct (controller_rejected Date_parse env body w Hnot)
      as [message ->].
    cbn. split; [now split|]. split; [reflexivity|now right; left].
Qed.

Lemma sampleBody_accepted : accepted sampleParse sampleBody sampleData.
Proof.
  unfold accepted. split; [reflexivity|]. split; [discriminate|].
  split; [reflexivity|]. split; [vm_compute; reflexivity|].
  exists "1970-01-01T00:00:05Z".
  split; [reflexivity|]. split; [discriminate|reflexivity].
Qed.

Lemma bad_request_iff_not_accepted_witness :
  statusCode
    (fst (postEvents sampleParse sampleSchedule
            {| Body.message := Str "hello";
               Body.recipientEmail := Str "user@example";
               Body.send_at := Str "1970-01-01T00:00:05Z" |} initial))
  = 400.
Proof.
  apply (bad_request_iff_not_accepted sampleParse sampleSchedule _ initial).
  intros (data & _ & _ & Hrecipient & Htest & _).
  cbn in Hrecipient. injection Hrecipient as Heq.
  rewrite <- Heq in Htest. vm_compute in Htest. discriminate.
Defined.

(** X20. A request that passes the checks, with the insert and the
    enqueue accepted, is answered 201 with the row as stored: the id
    drawn, the message, recipient and instant of the request and status
    [SCHEDULED]; the row is in the table and one job was handed to the
    queue for it. *)
Theorem post_created (Date_parse : string -> option Z) (env : ScheduleEnv)
    (body : Body.t) (data : CreateEventData.t) (w : World) :
  accepted Date_parse body data ->
  rejects (create env) = false ->
  db w !! uuid env = None ->
  addRejects env = false ->
  exists (row : Event) (job : QueuedJob.t) (w' : World),
    postEvents Date_parse env body w
    = ({| statusCode := 201;
          json :=
            WithEvent "Event scheduled successfully!"
              {| ScheduledView.id := uuid env;
                 ScheduledView.message := CreateEventData.message data;
                 ScheduledView.recipientEmail :=
                   CreateEventData.recipientEmail data;
                 ScheduledView.sendAt :=
                   toISOString (CreateEventData.sendAt data);
                 ScheduledView.status := SCHEDULED |} |},
       w')
    /\ db w' !! uuid env = Some row
    /\ message row = CreateEventData.message data
    /\ recipientEmail row = CreateEventData.recipientEmail data
    /\ sendAt row = CreateEventData.sendAt data
    /\ status row = SCHEDULED
    /\ enqueued (effects w') = enqueued (effects w) ++ [job]
    /\ JobsOptions.jobId (QueuedJob.opts job) = uuid env.
Proof.
  intros Hacc Hcreate Hfresh Hadd. unfold postEvents.
  rewrite (controller_accepted _ env _ data w Hacc).
  rewrite scheduleEvent_eq, Hcreate, Hfresh, Hadd. cbv zeta.
  do 3 eexists. split; [reflexivity|]. cbn -[Z.max].
  split; [apply lookup_insert_eq|].
  do 4 (split; [reflexivity|]).
  split; [now rewrite enqueued_app|reflexivity].
Qed.

Lemma post_created_witness :
  statusCode (fst (postEvents sampleParse sampleSchedule sampleBody initial))
  = 201.
Proof.
  destruct (post_created sampleParse sampleSchedule sampleBody sampleData
              initial) as (row & job & w' & -> & _).
  - apply sampleBody_accepted.
  - reflexivity.
  - reflexivity.
  - reflexivity.
  - reflexivity.
Defined.

(** X21. A request that passes the checks and whose scheduling fails is
    answered 500 with the error text "Failed to schedule event.",
    whatever went wrong underneath.  When it was the enqueue that failed,
    the row is in the table all the same, with status [SCHEDULED], and
    neither a job nor a broadcast exists for it: the caller is told of a
    failure while the event is stored and will not be processed. *)
Theorem post_failed (Date_parse : string -> option Z) (env : ScheduleEnv)
    (body : Body.t) (data : CreateEventData.t) (w : World) :
  accepted Date_parse body data ->
  statusCode (fst (postEvents Date_parse env body w)) <> 201 ->
  fst (postEvents Date_parse env body w)
  = {| statusCode := 500;
       json := WithError "Something went wrong!" "Failed to schedule event." |}
  /\ (rejects (create env) = false ->
      db w !! uuid env = None ->
      exists row : Event,
        addRejects env = true
        /\ db (snd (postEvents Date_parse env body w)) !! uuid env = Some row
        /\ status row = SCHEDULED
        /\ retryCount row = 0
        /\ enqueued (effects (snd (postEvents Date_parse env body w)))
           = enqueued (effects w)
        /\ published (effects (snd (postEvents Date_parse env body w)))
           = published (effects w)).
Proof.
  intros Hacc. unfold postEvents.
  rewrite (controller_accepted _ env _ data w Hacc).
  destruct (EventService.scheduleEvent env data w) as [[e|error] w']
    eqn:Hrun; cbn [fst snd statusCode]; [congruence|].
  intros _.
  rewrite (scheduleEvent_throws_one_error _ _ _ _ _ Hrun).
  split; [reflexivity|].
  intros Hcreate Hfresh.
  rewrite scheduleEvent_eq, Hcreate, Hfresh in Hrun. cbv zeta in Hrun.
  destruct (addRejects env); [|discriminate].
  injection Hrun as _ <-. cbn [db effects].
  eexists. split; [reflexivity|]. split; [apply lookup_insert_eq|].
  do 2 (split; [reflexivity|]).
  rewrite enqueued_app, published_app. cbn. now rewrite !app_nil_r.
Qed.

Lemma post_failed_witness :
  fst (postEvents sampleParse queueDown sampleBody initial)
  = {| statusCode := 500;
       json := WithError "Something went wrong!" "Failed to schedule event." |}.
Proof.
  apply (post_failed sampleParse queueDown sampleBody sampleData initial).
  - apply sampleBody_accepted.
  - vm_compute. discriminate.
Defined.

(** * The queue and the bus against the table *)

Lemma job_fits_step (op : Op) (w : World) (j : QueuedJob.t) :
  job_fits w j -> job_fits (step op w) j.
Proof.
  intros (Hid & Hattempts & Hdelay & row & Hrow & Hrecipient & Hmessage).
  destruct (step_samePayload op w _ _ Hrow)
    as (row' & Hrow' & _ & Hm & Hr & _).
  repeat split; try assumption.
  exists row'. split; [assumption|]. split; congruence.
Qed.

Lemma queue_fits_step (op : Op) (w : World) :
  queue_fits w -> queue_fits (step op w).
Proof.
  intros [Hdistinct Hjobs].
  assert (Hkept : Forall (job_fits (step op w)) (enqueued (effects w))).
  { eapply Forall_impl; [exact Hjobs|]. intros j. apply job_fits_step. }
  unfold queue_fits.
  destruct op as [env data | env job].
  - revert Hkept. cbn [step]. rewrite scheduleEvent_eq.
    destruct (rejects (create env)); [now split|].
    destruct (db w !! uuid env) eqn:Hfresh; [now split|].
    cbv zeta. destruct (addRejects env); cbn [snd effects db]; intros Hkept.
    + rewrite enqueued_app. cbn. rewrite app_nil_r. now split.
    + rewrite enqueued_app. cbn [enqueued flat_map app].
      split.
      * rewrite map_app. cbn. apply NoDup_app.
        split; [assumption|]. split; [|apply NoDup_singleton].
        intros key Hin Hnew. apply list_elem_of_singleton in Hnew as ->.
        apply list_elem_of_fmap in Hin as (j & Hkey & Hj).
        rewrite Forall_forall in Hjobs.
        destruct (Hjobs j Hj) as (_ & _ & _ & row & Hrow & _).
        unfold jobKey in Hkey, Hrow. cbn in Hkey. congruence.
      * apply Forall_app. split; [assumption|].
        repeat constructor; cbn -[Z.max]; try reflexivity; [lia|].
        eexists. unfold jobKey. cbn.
        split; [apply lookup_insert_eq|]. now split.
  - split.
    + cbn [step]. now rewrite eventWorker_never_enqueues.
    + cbn [step] in *. now rewrite eventWorker_never_enqueues.
Qed.

(** X22. Over every sequence of scheduler calls and processor runs from
    the empty table, the jobs handed to the queue have pairwise distinct
    keys, and every one of them belongs to a row that is in the table:
    its [jobId] and [eventId] are the row's id, its recipient and message
    are the row's, its [attempts] is 1 and its delay is not negative. *)
Theorem jobs_match_rows (ops : list Op) :
  NoDup (map jobKey (enqueued (effects (run ops initial))))
  /\ forall j : QueuedJob.t,
       j ∈ enqueued (effects (run ops initial)) ->
       SendEventJobData.eventId (QueuedJob.data j) = jobKey j
       /\ JobsOptions.attempts (QueuedJob.opts j) = 1
       /\ 0 <= JobsOptions.delay (QueuedJob.opts j)
       /\ exists row : Event,
            db (run ops initial) !! jobKey j = Some row
            /\ id row = jobKey j
            /\ recipientEmail row
               = SendEventJobData.recipientEmail (QueuedJob.data j)
            /\ message row = SendEventJobData.message (QueuedJob.data j).
Proof.
  assert (Hfits : queue_fits (run ops initial)).
  { induction ops as [|op ops IH] using rev_ind.
    - split; cbn; constructor.
    - rewrite run_snoc. now apply queue_fits_step. }
  destruct Hfits as [Hdistinct Hjobs]. split; [assumption|].
  intros j Hj. rewrite Forall_forall in Hjobs.
  destruct (Hjobs j Hj) as (? & ? & ? & row & Hrow & ? & ?).
  repeat split; try assumption.
  exists row. repeat split; try assumption.
  now apply (run_keyed ops).
Qed.







